(** * wifi-geolocate-worker: the binary codec and the aggregation logic

    A shallow embedding of [src/worker/index.js], and the properties of it
    that the specification states.

    Conventions of the embedding.
    - A [Uint8Array] or a JS array of bytes is a [list Z]; a [BigInt] is a
      [Z]; a JS string is a [string], held as its UTF-8 bytes.
    - Offsets, lengths, field numbers and wire types are JS Numbers that
      only ever hold non-negative integers; they are [Z].  Doubles hold
      such integers exactly up to 2^53, far above the length of a buffer.
      A length read from the wire can be larger: JS then rounds it (to
      [Infinity] beyond the range of doubles) where the embedding keeps it
      exact.  Either value is past the end of the buffer, and an offset
      past the end is only compared with the length of the buffer or
      clamped to it by [subarray].
    - [throw] is the [Throw] constructor of [outcome].
    - A [while] loop is [while_loop], which takes the number of iterations
      it may run; the decoders pass one more than the length of their
      buffer, and [decoders_terminate] shows that this is never used up and
      that a larger number changes nothing.
    - The arithmetic of JS Numbers (IEEE doubles and [Math]) is an
      interface, [JsNumber]; the decoders and the aggregation are written
      against it, and what is proved of them holds for every
      implementation unless the statement names one.  [xreal] implements it
      with exact reals. *)

From Equations Require Import Equations.
From Stdlib Require Import ZArith List String Ascii Bool Lia DecimalString.
From Stdlib Require Import Reals Lra.
Import ListNotations.
Local Open Scope string_scope.
Local Open Scope list_scope.
Local Open Scope Z_scope.

(* ================================================================= *)
(** ** Exceptions and outcomes *)

(** [Error] is the built-in JS error; [AppleServiceError] is the class of
    the source, with its [statusCode] and its [details] (the upstream
    [status] when there is one). *)
Inductive exn : Type :=
| Error (message : string)
| AppleServiceError (message : string) (statusCode : Z) (details : option Z).

Inductive outcome (A : Type) : Type :=
| Ok (a : A)
| Throw (e : exn).
Arguments Ok {A} a.
Arguments Throw {A} e.

Definition bind {A B : Type} (r : outcome A) (k : A -> outcome B) : outcome B :=
  match r with
  | Ok a => k a
  | Throw e => Throw e
  end.

Notation "x <- r ;; k" := (bind r (fun x => k))
  (at level 61, r at next level, right associativity).
Notation "' p <- r ;; k" := (bind r (fun x => let 'p := x in k))
  (at level 61, p pattern, r at next level, right associativity).

(* ================================================================= *)
(** ** Bytes, text and typed arrays *)

Definition byte_of_ascii (c : ascii) : Z := Z.of_N (N_of_ascii c).
Definition ascii_of_byte (b : Z) : ascii := ascii_of_N (Z.to_N (b mod 256)).

(** [TEXT_ENCODER.encode] and [TEXT_DECODER.decode]: a string is held as its
    UTF-8 bytes, so both are the change of representation. *)
Definition TEXT_ENCODER_encode (s : string) : list Z :=
  map byte_of_ascii (list_ascii_of_string s).
Definition TEXT_DECODER_decode (bytes : list Z) : string :=
  string_of_list_ascii (map ascii_of_byte bytes).

(** [Uint8Array.from(array)]: every element is stored modulo 256. *)
Definition Uint8Array_from (l : list Z) : list Z := map (fun b => b mod 256) l.

(** [buffer.subarray(begin, end)] for [0 <= begin]; both ends are clamped
    to the buffer by [skipn] and [firstn]. *)
Definition subarray (buffer : list Z) (begin end_ : Z) : list Z :=
  firstn (Z.to_nat (end_ - begin)) (skipn (Z.to_nat begin) buffer).

(** [Number(n)] of a BigInt that holds a field number, a wire type or a
    length, and the rendering of an integer Number in a template string. *)
Definition Number_of_BigInt (n : Z) : Z := n.
Definition string_of_Z (z : Z) : string := NilZero.string_of_int (Z.to_int z).

(* ================================================================= *)
(** ** Varints *)

(** [encodeVarint]: the loop runs while [n >= 0x80n]; the array it fills is
    returned in the order of the pushes. *)
Equations? encodeVarint (n : Z) : list Z by wf (Z.to_nat (Z.log2 n)) lt :=
  encodeVarint n with Z_le_dec 128 n := {
    | left _ => Z.lor (Z.land n 127) 128 :: encodeVarint (Z.shiftr n 7)
    | right _ => [n] }.
Proof.
  assert (7 <= Z.log2 n) by (apply Z.log2_le_pow2; lia).
  rewrite Z.log2_shiftr by lia. lia.
Qed.

(** The loop of [readVarint], over the bytes from [position] on. *)
Fixpoint readVarint_loop (rest : list Z) (result shift position : Z)
  : outcome (Z * Z) :=
  match rest with
  | [] => Throw (Error "Encountered truncated varint.")
  | byte :: rest' =>
      let position := position + 1 in
      let result := Z.lor result (Z.shiftl (Z.land byte 127) shift) in
      if Z.land byte 128 =? 0 then Ok (result, position)
      else readVarint_loop rest' result (shift + 7) position
  end.

(** [readVarint], for [0 <= offset]: the loop starts at [buffer[offset]]
    and throws when it reaches the end of the buffer. *)
Definition readVarint (buffer : list Z) (offset : Z) : outcome (Z * Z) :=
  readVarint_loop (skipn (Z.to_nat offset) buffer) 0 0 offset.

(** [decodeInt64]: the varint as a signed 64-bit value. *)
Definition decodeInt64 (buffer : list Z) (offset : Z) : outcome (Z * Z) :=
  '(value, nextOffset) <- readVarint buffer offset ;;
  let signed :=
    if 0x7fffffffffffffff <? value then value - 0x10000000000000000
    else value in
  Ok (signed, nextOffset).

Definition skipField (buffer : list Z) (offset wireType : Z) : outcome Z :=
  if wireType =? 0 then
    '(_, nextOffset) <- readVarint buffer offset ;; Ok nextOffset
  else if wireType =? 1 then Ok (offset + 8)
  else if wireType =? 2 then
    '(length, nextOffset) <- readVarint buffer offset ;;
    Ok (nextOffset + Number_of_BigInt length)
  else if wireType =? 5 then Ok (offset + 4)
  else Throw (Error ("Unsupported wire type: " ++ string_of_Z wireType)%string).

(* ================================================================= *)
(** ** Computations that contain loops *)

(** [M A]: a computation that returns, throws, or ([None]) is cut off by a
    loop that used up its iterations. *)
Definition M (A : Type) : Type := option (outcome A).

Definition ret {A : Type} (a : A) : M A := Some (Ok a).
Definition lift {A : Type} (r : outcome A) : M A := Some r.

Definition bindM {A B : Type} (m : M A) (k : A -> M B) : M B :=
  match m with
  | Some (Ok a) => k a
  | Some (Throw e) => Some (Throw e)
  | None => None
  end.

Notation "x <~ m ;; k" := (bindM m (fun x => k))
  (at level 61, m at next level, right associativity).
Notation "' p <~ m ;; k" := (bindM m (fun x => let 'p := x in k))
  (at level 61, p pattern, m at next level, right associativity).

(** A [while (cond) body] loop over a state [S], allowed [fuel]
    iterations. *)
Fixpoint while_loop {S : Type} (fuel : nat) (cond : S -> bool)
  (body : S -> M S) (s : S) : M S :=
  match fuel with
  | O => None
  | Datatypes.S fuel' =>
      if cond s then s' <~ body s ;; while_loop fuel' cond body s'
      else ret s
  end.

(* ================================================================= *)
(** ** JS Numbers *)

(** The operations on Numbers that the source uses.  [num_of_Z] is an
    integer literal and [Number(n)] of a BigInt; [num_eq] is [===];
    [toFixed_Number d x] is [Number(x.toFixed(d))]. *)
Class JsNumber (num : Type) : Type := {
  num_of_Z : Z -> num;
  Math_PI : num;
  num_add : num -> num -> num;
  num_mul : num -> num -> num;
  num_div : num -> num -> num;
  num_lt : num -> num -> bool;
  num_le : num -> num -> bool;
  num_eq : num -> num -> bool;
  Number_isFinite : num -> bool;
  Math_min : num -> num -> num;
  Math_max : num -> num -> num;
  Math_pow : num -> num -> num;
  Math_atan2 : num -> num -> num;
  Math_cos : num -> num;
  Math_sin : num -> num;
  Math_sqrt : num -> num;
  toFixed_Number : Z -> num -> num
}.

(** The rendering of a Number in a template string. *)
Class JsFormat (num : Type) : Type := {
  Number_toString : num -> string
}.

(* ================================================================= *)
(** ** The response decoder *)

Section Decoder.
Context {num : Type} {JN : JsNumber num}.

Record Location : Type := {
  latitudeE8 : num;
  longitudeE8 : num
}.

Record Device : Type := {
  bssid : option string;
  location : option Location
}.

(** One iteration of the loop of [parseLocation]; the state is
    [(offset, latitude, longitude)]. *)
Definition parseLocation_body (buffer : list Z)
  (s : Z * option Z * option Z) : outcome (Z * option Z * option Z) :=
  let '(offset, latitude, longitude) := s in
  '(tag, newOffset) <- readVarint buffer offset ;;
  let offset := newOffset in
  let fieldNumber := Number_of_BigInt (Z.shiftr tag 3) in
  let wireType := Number_of_BigInt (Z.land tag 7) in
  if wireType =? 0 then
    '(value, nextOffset) <- decodeInt64 buffer offset ;;
    let offset := nextOffset in
    if fieldNumber =? 1 then Ok (offset, Some value, longitude)
    else if fieldNumber =? 2 then Ok (offset, latitude, Some value)
    else Ok (offset, latitude, longitude)
  else
    offset <- skipField buffer offset wireType ;;
    Ok (offset, latitude, longitude).

Definition parseLocation_loop (fuel : nat) (buffer : list Z)
  : M (Z * option Z * option Z) :=
  while_loop fuel (fun '(offset, _, _) => offset <? Zlength buffer)
    (fun s => lift (parseLocation_body buffer s)) (0, None, None).

Definition parseLocation (buffer : list Z) : M (option Location) :=
  '(_, latitude, longitude) <~ parseLocation_loop (S (List.length buffer)) buffer ;;
  match latitude, longitude with
  | Some latitude, Some longitude =>
      ret (Some {| latitudeE8 := num_of_Z latitude;
                   longitudeE8 := num_of_Z longitude |})
  | _, _ => ret None
  end.

(** One iteration of the loop of [parseWifiDevice]; the state is
    [(offset, bssid, location)]. *)
Definition parseWifiDevice_body (buffer : list Z)
  (s : Z * option string * option Location)
  : M (Z * option string * option Location) :=
  let '(offset, bssid, location) := s in
  '(tag, newOffset) <~ lift (readVarint buffer offset) ;;
  let offset := newOffset in
  let fieldNumber := Number_of_BigInt (Z.shiftr tag 3) in
  let wireType := Number_of_BigInt (Z.land tag 7) in
  if (fieldNumber =? 1) && (wireType =? 2) then
    '(length, lengthOffset) <~ lift (readVarint buffer offset) ;;
    let offset := lengthOffset in
    let end_ := offset + Number_of_BigInt length in
    ret (end_, Some (TEXT_DECODER_decode (subarray buffer offset end_)),
         location)
  else if (fieldNumber =? 2) && (wireType =? 2) then
    '(length, lengthOffset) <~ lift (readVarint buffer offset) ;;
    let offset := lengthOffset in
    let end_ := offset + Number_of_BigInt length in
    location <~ parseLocation (subarray buffer offset end_) ;;
    ret (end_, bssid, location)
  else
    offset <~ lift (skipField buffer offset wireType) ;;
    ret (offset, bssid, location).

Definition parseWifiDevice_loop (fuel : nat) (buffer : list Z)
  : M (Z * option string * option Location) :=
  while_loop fuel (fun '(offset, _, _) => offset <? Zlength buffer)
    (parseWifiDevice_body buffer) (0, None, None).

Definition parseWifiDevice (buffer : list Z) : M Device :=
  '(_, bssid, location) <~ parseWifiDevice_loop (S (List.length buffer)) buffer ;;
  ret {| bssid := bssid; location := location |}.

(** One iteration of the loop of [parseAppleWLoc]; the state is
    [(offset, devices)]. *)
Definition parseAppleWLoc_body (buffer : list Z) (s : Z * list Device)
  : M (Z * list Device) :=
  let '(offset, devices) := s in
  '(tag, newOffset) <~ lift (readVarint buffer offset) ;;
  let offset := newOffset in
  let fieldNumber := Number_of_BigInt (Z.shiftr tag 3) in
  let wireType := Number_of_BigInt (Z.land tag 7) in
  if (fieldNumber =? 2) && (wireType =? 2) then
    '(length, lengthOffset) <~ lift (readVarint buffer offset) ;;
    let offset := lengthOffset in
    let end_ := offset + Number_of_BigInt length in
    device <~ parseWifiDevice (subarray buffer offset end_) ;;
    ret (end_, devices ++ [device])
  else
    offset <~ lift (skipField buffer offset wireType) ;;
    ret (offset, devices).

Definition parseAppleWLoc_loop (fuel : nat) (buffer : list Z)
  : M (Z * list Device) :=
  while_loop fuel (fun '(offset, _) => offset <? Zlength buffer)
    (parseAppleWLoc_body buffer) (0, []).

Definition parseAppleWLoc (buffer : list Z) : M (list Device) :=
  '(_, devices) <~ parseAppleWLoc_loop (S (List.length buffer)) buffer ;;
  ret devices.

End Decoder.
Arguments Location num : clear implicits.
Arguments Device num : clear implicits.

(* ================================================================= *)
(** ** BSSIDs *)

(** The class [[a-f0-9]] under the [i] flag. *)
Definition isHexDigit (c : ascii) : bool :=
  let n := nat_of_ascii c in
  ((48 <=? n) && (n <=? 57) || (97 <=? n) && (n <=? 102)
   || (65 <=? n) && (n <=? 70))%nat.

Fixpoint string_filter (p : ascii -> bool) (s : string) : string :=
  match s with
  | EmptyString => EmptyString
  | String c s' =>
      if p c then String c (string_filter p s') else string_filter p s'
  end.

Fixpoint string_map (f : ascii -> ascii) (s : string) : string :=
  match s with
  | EmptyString => EmptyString
  | String c s' => String (f c) (string_map f s')
  end.

(** [toLowerCase] on one character: the letters [A]..[Z] move to
    [a]..[z]; the other bytes stay. *)
Definition lowerChar (c : ascii) : ascii :=
  let n := nat_of_ascii c in
  if ((65 <=? n) && (n <=? 90))%nat then ascii_of_nat (n + 32) else c.

Definition toLowerCase (s : string) : string := string_map lowerChar s.

(** [input.replace(/[^a-f0-9]/gi, '')]. *)
Definition stripNonHex (input : string) : string :=
  string_filter isHexDigit input.

(** The values of [i] in [for (let i = 0; i < len; i += 2)]. *)
Definition evenIndices (len : nat) : list nat :=
  map (fun k => (2 * k)%nat) (seq 0 (Nat.div2 (S len))).

(** [s.slice(i, j)] for [0 <= i <= j]. *)
Definition slice (s : string) (i j : nat) : string := substring i (j - i) s.

Definition normalizeBssid (input : string) : outcome string :=
  let hex := toLowerCase (stripNonHex input) in
  if negb (String.length hex =? 12)%nat then
    Throw (Error "Each BSSID must contain 12 hexadecimal characters.")
  else
    let parts :=
      map (fun i => slice hex i (i + 2)) (evenIndices (String.length hex)) in
    Ok (String.concat ":" parts).

Definition tryNormalizeBssid (input : string) : option string :=
  match normalizeBssid input with
  | Ok normalized => Some normalized
  | Throw _ => None
  end.

(** JS truthiness of a string: the empty string is falsy. *)
Definition truthy (s : string) : bool :=
  match s with
  | EmptyString => false
  | String _ _ => true
  end.

(* ================================================================= *)
(** ** The request *)

Section Request.
Context {num : Type} {JN : JsNumber num}.

Record AccessPoint : Type := {
  ap_bssid : string;
  signal : option num
}.

(** What the loop of [encodeAppleWLocRequest] pushes for one point. *)
Definition encodeAccessPoint (point : AccessPoint) : list Z :=
  let bssidBytes := TEXT_ENCODER_encode (ap_bssid point) in
  let wifiDevice := [0x0a] ++ encodeVarint (Zlength bssidBytes) ++ bssidBytes in
  [0x12] ++ encodeVarint (Zlength wifiDevice) ++ wifiDevice.

Definition encodeAppleWLocRequest (accessPoints : list AccessPoint)
  (includeAll : bool) : outcome (list Z) :=
  if (List.length accessPoints =? 0)%nat then
    Throw (Error "At least one access point is required.")
  else
    let message :=
      fold_left (fun message point => message ++ encodeAccessPoint point)
        accessPoints [] in
    let message := message ++ [0x18] ++ encodeVarint 0 in
    let returnSingle :=
      if negb includeAll && (List.length accessPoints =? 1)%nat then 1 else 0 in
    let message := message ++ [0x20] ++ encodeVarint returnSingle in
    Ok (Uint8Array_from message).

(** [buildEnvelope]: the segments are copied one after another into a
    buffer of their total length. *)
Definition buildEnvelope (message : list Z) : list Z :=
  let segments :=
    [ Uint8Array_from [0x00; 0x01; 0x00; 0x05];
      TEXT_ENCODER_encode "en_US";
      Uint8Array_from [0x00; 0x13];
      TEXT_ENCODER_encode "com.apple.locationd";
      Uint8Array_from [0x00; 0x0a];
      TEXT_ENCODER_encode "8.1.12B411";
      Uint8Array_from [0x00; 0x00; 0x00; 0x01; 0x00; 0x00; 0x00];
      Uint8Array_from [Zlength message];
      message ] in
  List.concat segments.

(** What [fetch] resolves to: [response.ok], [response.status] and the
    bytes of [response.arrayBuffer()]. *)
Record FetchResponse : Type := {
  ok : bool;
  status : Z;
  body : list Z
}.

(** [requestAppleDevices], over the transport: [fetch payload] is the POST
    of [payload] to the service, which resolves to a response or rejects. *)
Definition requestAppleDevices (fetch : list Z -> outcome FetchResponse)
  (accessPoints : list AccessPoint) (includeAll : bool)
  : M (list (Device num)) :=
  protobufRequest <~ lift (encodeAppleWLocRequest accessPoints includeAll) ;;
  let payload := buildEnvelope protobufRequest in
  response <~ lift (fetch payload) ;;
  if negb (ok response) then
    lift (Throw (AppleServiceError
      "Apple location service returned a non-success status." 502
      (Some (status response))))
  else
    let body := body response in
    if Zlength body <=? 10 then
      lift (Throw (AppleServiceError
        "Apple location service returned an unexpected payload." 502 None))
    else parseAppleWLoc (subarray body 10 (Zlength body)).

End Request.
Arguments AccessPoint num : clear implicits.

(* ================================================================= *)
(** ** Aggregation and triangulation *)

(** A JS [Map] keyed by strings, in insertion order. *)
Fixpoint map_get {V : Type} (m : list (string * V)) (key : string) : option V :=
  match m with
  | [] => None
  | (k, v) :: m' => if String.eqb k key then Some v else map_get m' key
  end.

Fixpoint map_set {V : Type} (m : list (string * V)) (key : string) (value : V)
  : list (string * V) :=
  match m with
  | [] => [(key, value)]
  | (k, v) :: m' =>
      if String.eqb k key then (k, value) :: m'
      else (k, v) :: map_set m' key value
  end.

Definition map_has {V : Type} (m : list (string * V)) (key : string) : bool :=
  match map_get m key with
  | Some _ => true
  | None => false
  end.

Section Aggregation.
Context {num : Type} {JN : JsNumber num} {JF : JsFormat num}.

Record SignalSummary : Type := {
  summary_signal : num;
  signalCount : Z;
  signalMin : num;
  signalMax : num
}.

Record ResultEntry : Type := {
  entry_bssid : string;
  entry_latitude : num;
  entry_longitude : num;
  mapUrl : string;
  entry_summary : option SignalSummary
}.

Record Candidate : Type := {
  latitude : num;
  longitude : num;
  weight : num
}.

Record Estimate : Type := {
  est_latitude : num;
  est_longitude : num;
  pointsUsed : Z;
  weightSum : num
}.

Record Triangulated : Type := {
  tri_latitude : num;
  tri_longitude : num;
  tri_pointsUsed : Z;
  tri_weightSum : num;
  method : string;
  signalWeightModel : string
}.

Record FormatResponse : Type := {
  query_accessPoints : list (AccessPoint num);
  query_all : bool;
  found : bool;
  results : list ResultEntry;
  triangulated : option Triangulated
}.

Definition summarizeSignals (signals : list num) : option SignalSummary :=
  match signals with
  | [] => None
  | first :: _ =>
      let '(min, max, total) :=
        fold_left
          (fun '(min, max, total) value =>
             (Math_min min value, Math_max max value, num_add total value))
          signals (first, first, num_of_Z 0) in
      let average := num_div total (num_of_Z (Zlength signals)) in
      Some {| summary_signal := toFixed_Number 2 average;
              signalCount := Zlength signals;
              signalMin := min;
              signalMax := max |}
  end.

Definition weightFromSignal (signal : num) : num :=
  if negb (Number_isFinite signal) then num_of_Z 0
  else
    let clamped :=
      Math_max (Math_min signal (num_of_Z (-5))) (num_of_Z (-120)) in
    Math_pow (num_of_Z 10) (num_div clamped (num_of_Z 10)).

Definition toRadians (degrees : num) : num :=
  num_div (num_mul degrees Math_PI) (num_of_Z 180).

Definition toDegrees (radians : num) : num :=
  num_div (num_mul radians (num_of_Z 180)) Math_PI.

(** One iteration of the loop of [computeTriangulatedLocation]; the state
    is [(totalWeight, x, y, z)]. *)
Definition accumulatePoint (s : num * num * num * num) (point : Candidate)
  : num * num * num * num :=
  let '(totalWeight, x, y, z) := s in
  let weight := weight point in
  if negb (num_lt (num_of_Z 0) weight) then s
  else
    let latRad := toRadians (latitude point) in
    let lonRad := toRadians (longitude point) in
    let cosLat := Math_cos latRad in
    let x := num_add x (num_mul (num_mul cosLat (Math_cos lonRad)) weight) in
    let y := num_add y (num_mul (num_mul cosLat (Math_sin lonRad)) weight) in
    let z := num_add z (num_mul (Math_sin latRad) weight) in
    let totalWeight := num_add totalWeight weight in
    (totalWeight, x, y, z).

Definition computeTriangulatedLocation (points : list Candidate)
  : option Estimate :=
  if Zlength points <? 2 then None
  else
    let zero := num_of_Z 0 in
    let '(totalWeight, x, y, z) :=
      fold_left accumulatePoint points (zero, zero, zero, zero) in
    if num_le totalWeight zero then None
    else
      let x := num_div x totalWeight in
      let y := num_div y totalWeight in
      let z := num_div z totalWeight in
      let hyp := Math_sqrt (num_add (num_mul x x) (num_mul y y)) in
      let latitude := Math_atan2 z hyp in
      let longitude := Math_atan2 y x in
      Some {| est_latitude := toFixed_Number 7 (toDegrees latitude);
              est_longitude := toFixed_Number 7 (toDegrees longitude);
              pointsUsed := Zlength points;
              weightSum := totalWeight |}.

(** The first loop of [formatResults]: the signals of every requested
    BSSID. *)
Definition recordRequested (requestedMap : list (string * list num))
  (point : AccessPoint num) : list (string * list num) :=
  let existing :=
    match map_get requestedMap (ap_bssid point) with
    | Some existing => existing
    | None => []
    end in
  let existing :=
    match signal point with
    | Some signal =>
        if Number_isFinite signal then existing ++ [signal] else existing
    | None => existing
    end in
  map_set requestedMap (ap_bssid point) existing.

(** One iteration of the second loop of [formatResults]; the state is
    [(aggregatedResults, triangulationCandidates)]. *)
Definition formatDevice (requestedMap : list (string * list num))
  (s : list ResultEntry * list Candidate) (device : Device num)
  : list ResultEntry * list Candidate :=
  let '(aggregatedResults, triangulationCandidates) := s in
  match bssid device, location device with
  | Some device_bssid, Some device_location =>
      if negb (truthy device_bssid) then s
      else
        match tryNormalizeBssid device_bssid with
        | None => s
        | Some normalized =>
            if negb (truthy normalized) then s
            else
              let latitude :=
                num_div (latitudeE8 device_location) (num_of_Z 100000000) in
              let longitude :=
                num_div (longitudeE8 device_location) (num_of_Z 100000000) in
              if num_eq latitude (num_of_Z (-180))
                 && num_eq longitude (num_of_Z (-180))
              then s
              else
                let signals :=
                  match map_get requestedMap normalized with
                  | Some signals => signals
                  | None => []
                  end in
                let summary := summarizeSignals signals in
                let aggregatedResults :=
                  aggregatedResults ++
                  [ {| entry_bssid := normalized;
                       entry_latitude := latitude;
                       entry_longitude := longitude;
                       mapUrl :=
                         ("https://www.google.com/maps/place/"
                          ++ Number_toString latitude ++ ","
                          ++ Number_toString longitude)%string;
                       entry_summary := summary |} ] in
                let weight :=
                  fold_left
                    (fun total signal =>
                       num_add total (weightFromSignal signal))
                    signals (num_of_Z 0) in
                if num_lt (num_of_Z 0) weight then
                  (aggregatedResults,
                   triangulationCandidates ++
                   [ {| latitude := latitude; longitude := longitude;
                        weight := weight |} ])
                else (aggregatedResults, triangulationCandidates)
        end
  | _, _ => s
  end.

(** The second loop of [formatResults]: the two arrays it builds. *)
Definition aggregateDevices (requestedMap : list (string * list num))
  (devices : list (Device num)) : list ResultEntry * list Candidate :=
  fold_left (formatDevice requestedMap) devices ([], []).

Definition formatResults (devices : list (Device num))
  (requestedAccessPoints : list (AccessPoint num)) (includeAll : bool)
  : FormatResponse :=
  let requestedMap := fold_left recordRequested requestedAccessPoints [] in
  let '(aggregatedResults, triangulationCandidates) :=
    aggregateDevices requestedMap devices in
  let results :=
    if includeAll then aggregatedResults
    else filter (fun entry => map_has requestedMap (entry_bssid entry))
           aggregatedResults in
  let triangulated := computeTriangulatedLocation triangulationCandidates in
  {| query_accessPoints := requestedAccessPoints;
     query_all := includeAll;
     found := 0 <? Zlength results;
     results := results;
     triangulated :=
       match triangulated with
       | Some triangulated =>
           Some {| tri_latitude := est_latitude triangulated;
                   tri_longitude := est_longitude triangulated;
                   tri_pointsUsed := pointsUsed triangulated;
                   tri_weightSum := weightSum triangulated;
                   method := "weighted-centroid";
                   signalWeightModel := "10^(dBm/10)" |}
       | None => None
       end |}.

End Aggregation.

(* ================================================================= *)
(** ** Numbers as extended reals *)

(** An instance of [JsNumber] in which every finite Number is a real and
    every operation is exact: doubles without rounding and without a signed
    zero.  The special values follow ECMAScript. *)
Inductive xreal : Type :=
| NaN
| Infinity (negative : bool)
| Finite (r : R).

Module XReal.
Local Open Scope R_scope.

Definition ltb (a b : R) : bool := if Rlt_dec a b then true else false.
Definition leb (a b : R) : bool := if Rle_dec a b then true else false.
Definition eqb (a b : R) : bool := if Req_dec_T a b then true else false.

Definition add (a b : xreal) : xreal :=
  match a, b with
  | NaN, _ | _, NaN => NaN
  | Infinity s, Infinity t => if Bool.eqb s t then Infinity s else NaN
  | Infinity s, Finite _ | Finite _, Infinity s => Infinity s
  | Finite x, Finite y => Finite (x + y)
  end.

Definition mul (a b : xreal) : xreal :=
  match a, b with
  | NaN, _ | _, NaN => NaN
  | Infinity s, Infinity t => Infinity (xorb s t)
  | Infinity s, Finite x | Finite x, Infinity s =>
      if eqb x 0 then NaN else Infinity (xorb s (ltb x 0))
  | Finite x, Finite y => Finite (x * y)
  end.

Definition div (a b : xreal) : xreal :=
  match a, b with
  | NaN, _ | _, NaN => NaN
  | Infinity _, Infinity _ => NaN
  | Infinity s, Finite y => Infinity (xorb s (ltb y 0))
  | Finite _, Infinity _ => Finite 0
  | Finite x, Finite y =>
      if eqb y 0 then (if eqb x 0 then NaN else Infinity (ltb x 0))
      else Finite (x / y)
  end.

Definition lt (a b : xreal) : bool :=
  match a, b with
  | NaN, _ | _, NaN => false
  | Infinity s, Infinity t => s && negb t
  | Infinity s, Finite _ => s
  | Finite _, Infinity t => negb t
  | Finite x, Finite y => ltb x y
  end.

Definition le (a b : xreal) : bool :=
  match a, b with
  | NaN, _ | _, NaN => false
  | Infinity s, Infinity t => s || negb t
  | Infinity s, Finite _ => s
  | Finite _, Infinity t => negb t
  | Finite x, Finite y => leb x y
  end.

Definition eq (a b : xreal) : bool :=
  match a, b with
  | NaN, _ | _, NaN => false
  | Infinity s, Infinity t => Bool.eqb s t
  | Infinity _, Finite _ | Finite _, Infinity _ => false
  | Finite x, Finite y => eqb x y
  end.

Definition isFinite (a : xreal) : bool :=
  match a with
  | Finite _ => true
  | _ => false
  end.

Definition min (a b : xreal) : xreal :=
  match a, b with
  | NaN, _ | _, NaN => NaN
  | _, _ => if lt b a then b else a
  end.

Definition max (a b : xreal) : xreal :=
  match a, b with
  | NaN, _ | _, NaN => NaN
  | _, _ => if lt a b then b else a
  end.

Definition isInteger (x : R) : bool := eqb (IZR (Int_part x)) x.
Definition isOddInteger (x : R) : bool :=
  isInteger x && Z.odd (Int_part x).

(** [Math.pow], case by case as Number::exponentiate lists them. *)
Definition pow (base exponent : xreal) : xreal :=
  match exponent with
  | NaN => NaN
  | Finite e =>
      if eqb e 0 then Finite 1
      else
        match base with
        | NaN => NaN
        | Infinity false => if ltb 0 e then Infinity false else Finite 0
        | Infinity true =>
            if ltb 0 e then Infinity (isOddInteger e) else Finite 0
        | Finite b =>
            if eqb b 0 then (if ltb 0 e then Finite 0 else Infinity false)
            else if ltb 0 b then Finite (Rpower b e)
            else if isInteger e then Finite (powerRZ b (Int_part e))
            else NaN
        end
  | Infinity negative =>
      match base with
      | NaN => NaN
      | Infinity _ => if negative then Finite 0 else Infinity false
      | Finite b =>
          if eqb (Rabs b) 1 then NaN
          else if Bool.eqb (ltb 1 (Rabs b)) negative then Finite 0
          else Infinity false
      end
  end.

Definition atan2 (y x : xreal) : xreal :=
  match y, x with
  | NaN, _ | _, NaN => NaN
  | Infinity s, Infinity t =>
      let a := if t then 3 * PI / 4 else PI / 4 in
      Finite (if s then - a else a)
  | Infinity s, Finite _ => Finite (if s then - (PI / 2) else PI / 2)
  | Finite b, Infinity t =>
      if t then Finite (if ltb b 0 then - PI else PI) else Finite 0
  | Finite b, Finite a =>
      if ltb 0 a then Finite (atan (b / a))
      else if ltb a 0 then
        Finite (if ltb b 0 then atan (b / a) - PI else atan (b / a) + PI)
      else if ltb 0 b then Finite (PI / 2)
      else if ltb b 0 then Finite (- (PI / 2))
      else Finite 0
  end.

Definition cos (a : xreal) : xreal :=
  match a with
  | Finite x => Finite (Rtrigo_def.cos x)
  | _ => NaN
  end.

Definition sin (a : xreal) : xreal :=
  match a with
  | Finite x => Finite (Rtrigo_def.sin x)
  | _ => NaN
  end.

Definition sqrt (a : xreal) : xreal :=
  match a with
  | NaN => NaN
  | Infinity s => if s then NaN else Infinity false
  | Finite x => if ltb x 0 then NaN else Finite (R_sqrt.sqrt x)
  end.

(** [Number(x.toFixed(d))]: the multiple of [10^-d] nearest to [x], the
    larger one of two. *)
Definition toFixed_Number (d : Z) (a : xreal) : xreal :=
  match a with
  | Finite x =>
      if leb (IZR (10 ^ 21)) (Rabs x) then Finite x
      else Finite (IZR (Int_part (x * IZR (10 ^ d) + / 2)) / IZR (10 ^ d))
  | _ => a
  end.

End XReal.

#[export] Instance xreal_JsNumber : JsNumber xreal := {
  num_of_Z := fun z => Finite (IZR z);
  Math_PI := Finite PI;
  num_add := XReal.add;
  num_mul := XReal.mul;
  num_div := XReal.div;
  num_lt := XReal.lt;
  num_le := XReal.le;
  num_eq := XReal.eq;
  Number_isFinite := XReal.isFinite;
  Math_min := XReal.min;
  Math_max := XReal.max;
  Math_pow := XReal.pow;
  Math_atan2 := XReal.atan2;
  Math_cos := XReal.cos;
  Math_sin := XReal.sin;
  Math_sqrt := XReal.sqrt;
  toFixed_Number := XReal.toFixed_Number
}.

(* ================================================================= *)
(** ** Vocabulary of the properties *)

Definition truncatedVarint : exn := Error "Encountered truncated varint.".
Definition unsupportedWireType (wireType : Z) : exn :=
  Error ("Unsupported wire type: " ++ string_of_Z wireType)%string.

(** The two errors of the decoder. *)
Definition decodeError (e : exn) : Prop :=
  e = truncatedVarint \/ exists wireType, e = unsupportedWireType wireType.

(** [m] ends: it returns, or it throws one of the two decode errors. *)
Definition decodes {A : Type} (m : M A) : Prop :=
  exists r, m = Some r /\ forall e, r = Throw e -> decodeError e.






(** A varint read as a signed 64-bit value in two's complement. *)
Definition toSigned64 (value : Z) : Z :=
  if 2 ^ 63 - 1 <? value then value - 2 ^ 64 else value.






(** A character of a canonical BSSID: a hexadecimal digit that
    [toLowerCase] leaves alone. *)
Definition canonicalChar (c : ascii) : bool :=
  isHexDigit c && Ascii.eqb (lowerChar c) c.

Fixpoint string_forall (p : ascii -> bool) (s : string) : bool :=
  match s with
  | EmptyString => true
  | String c s' => p c && string_forall p s'
  end.

(** The pair of coordinates that stands for an unknown location. *)
Definition isSentinel {num : Type} {JN : JsNumber num}
  (latitude longitude : num) : bool :=
  num_eq latitude (num_of_Z (-180)) && num_eq longitude (num_of_Z (-180)).

(** A device whose location, scaled to degrees, is the sentinel. *)
Definition sentinelDevice {num : Type} {JN : JsNumber num}
  (device : Device num) : bool :=
  match location device with
  | Some device_location =>
      isSentinel (num_div (latitudeE8 device_location) (num_of_Z 100000000))
                 (num_div (longitudeE8 device_location) (num_of_Z 100000000))
  | None => false
  end.

Definition entryNotSentinel {num : Type} {JN : JsNumber num}
  (entry : ResultEntry (num := num)) : Prop :=
  isSentinel (entry_latitude entry) (entry_longitude entry) = false.

Definition candidateNotSentinel {num : Type} {JN : JsNumber num}
  (point : Candidate (num := num)) : Prop :=
  isSentinel (latitude point) (longitude point) = false.

(** Comparisons of reals that [lra] settles. *)
Ltac decide_reals :=
  repeat match goal with
         | |- context [Rlt_dec ?a ?b] => destruct (Rlt_dec a b); try lra
         | |- context [Rle_dec ?a ?b] => destruct (Rle_dec a b); try lra
         | |- context [Req_dec_T ?a ?b] => destruct (Req_dec_T a b); try lra
         end.

(* ================================================================= *)
(** ** Vocabulary of further properties *)


(** A value that a [Uint8Array] holds unchanged. *)
Definition isByte (b : Z) : Prop := 0 <= b < 256.

(** The twelve digits of [hex], two by two, with colons between. *)
Definition joinPairs (hex : string) : string :=
  String.concat ":"
    (map (fun i => slice hex i (i + 2)) (evenIndices (String.length hex))).


(** The 49 bytes of the envelope that come before the length of the
    message. *)
Definition envelopeHeader : list Z :=
  [0x00; 0x01; 0x00; 0x05]
  ++ TEXT_ENCODER_encode "en_US"
  ++ [0x00; 0x13]
  ++ TEXT_ENCODER_encode "com.apple.locationd"
  ++ [0x00; 0x0a]
  ++ TEXT_ENCODER_encode "8.1.12B411"
  ++ [0x00; 0x00; 0x00; 0x01; 0x00; 0x00; 0x00].

(** The submessage of one access point in a request, and the wrappers of
    all the access points, one after another. *)
Definition wifiDeviceBytes {num : Type} (point : AccessPoint num) : list Z :=
  [0x0a] ++ encodeVarint (Zlength (TEXT_ENCODER_encode (ap_bssid point)))
  ++ TEXT_ENCODER_encode (ap_bssid point).

Definition wrappersOf {num : Type} {JN : JsNumber num}
  (accessPoints : list (AccessPoint num)) : list Z :=
  flat_map encodeAccessPoint accessPoints.

(** The signal of a requested point as the first loop of [formatResults]
    keeps it: a finite Number, or nothing. *)
Definition keptSignal {num : Type} {JN : JsNumber num}
  (point : AccessPoint num) : list num :=
  match signal point with
  | Some value => if Number_isFinite value then [value] else []
  | None => []
  end.

(** The kept signals of the requested points with this BSSID, in the order
    of the request. *)
Definition signalsFor {num : Type} {JN : JsNumber num}
  (key : string) (points : list (AccessPoint num)) : list num :=
  flat_map
    (fun point => if String.eqb (ap_bssid point) key then keptSignal point
                  else [])
    points.

(** Some requested point has this BSSID. *)
Definition requested {num : Type} (key : string)
  (points : list (AccessPoint num)) : bool :=
  existsb (fun point => String.eqb (ap_bssid point) key) points.

(** [found ?? []]. *)
Definition orEmpty {A : Type} (found : option (list A)) : list A :=
  match found with
  | Some signals => signals
  | None => []
  end.

(** The weight that the second loop of [formatResults] gives a device from
    its signals. *)
Definition weightOf {num : Type} {JN : JsNumber num} (signals : list num) : num :=
  fold_left (fun total signal => num_add total (weightFromSignal signal))
    signals (num_of_Z 0).

(** [entry] is what [formatResults] makes of [device]: the device has a
    BSSID that normalizes to the one of the entry and a location, whose
    coordinates divided by 1e8 are those of the entry; the summary is the
    one of the signals in the map under that BSSID. *)
Definition entryOf {num : Type} {JN : JsNumber num} {JF : JsFormat num}
  (requestedMap : list (string * list num)) (device : Device num)
  (entry : ResultEntry) : Prop :=
  exists device_bssid device_location,
    bssid device = Some device_bssid
    /\ location device = Some device_location
    /\ tryNormalizeBssid device_bssid = Some (entry_bssid entry)
    /\ entry_latitude entry
       = num_div (latitudeE8 device_location) (num_of_Z 100000000)
    /\ entry_longitude entry
       = num_div (longitudeE8 device_location) (num_of_Z 100000000)
    /\ entry_summary entry
       = summarizeSignals (orEmpty (map_get requestedMap (entry_bssid entry))).

(** [point] is the triangulation candidate of [entry]: the same place, and
    the weight of the signals of its BSSID, which is above 0. *)
Definition candidateOf {num : Type} {JN : JsNumber num} {JF : JsFormat num}
  (requestedMap : list (string * list num)) (entry : ResultEntry)
  (point : Candidate) : Prop :=
  latitude point = entry_latitude entry
  /\ longitude point = entry_longitude entry
  /\ weight point = weightOf (orEmpty (map_get requestedMap (entry_bssid entry)))
  /\ num_lt (num_of_Z 0) (weight point) = true.

(** What holds of the two arrays all along the second loop. *)
Definition aggregated {num : Type} {JN : JsNumber num} {JF : JsFormat num}
  (requestedMap : list (string * list num))
  (devices : list (Device num)) (s : list ResultEntry * list Candidate) : Prop :=
  Forall (fun entry =>
            isSentinel (entry_latitude entry) (entry_longitude entry) = false
            /\ exists device,
                 In device devices /\ entryOf requestedMap device entry)
    (fst s)
  /\ Forall (fun point =>
               exists entry,
                 In entry (fst s) /\ candidateOf requestedMap entry point)
       (snd s)
  /\ (List.length (snd s) <= List.length (fst s))%nat.

(** A rendering of Numbers for the places where the rendering plays no
    part (it only ever reaches [mapUrl]). *)
Definition blankFormat : JsFormat xreal :=
  {| Number_toString := fun _ => EmptyString |}.

(** The test [weight > 0] of [computeTriangulatedLocation]. *)
Definition contributes {num : Type} {JN : JsNumber num}
  (point : Candidate (num := num)) : bool :=
  num_lt (num_of_Z 0) (weight point).

(** A candidate point with finite coordinates and a finite weight, and the
    part of its weight that counts. *)
Definition finitePoint (p : R * R * R) : Candidate (num := xreal) :=
  let '(lat, lon, w) := p in
  {| latitude := Finite lat; longitude := Finite lon; weight := Finite w |}.

Definition countedWeight (p : R * R * R) : R :=
  let '(_, _, w) := p in if Rlt_dec 0 w then w else 0%R.

Definition totalWeightOf (points : list (R * R * R)) : R :=
  fold_right (fun p total => (countedWeight p + total)%R) 0%R points.

(** The response of the service for 34:db:fd:43:e3:a1 at latitude
    48.856613 and longitude 2.352222, and the request for it with a signal
    of -52 dBm. *)
Definition parisDevice : Device xreal :=
  {| bssid := Some "34:db:fd:43:e3:a1";
     location := Some {| latitudeE8 := Finite (IZR 4885661300);
                         longitudeE8 := Finite (IZR 235222200) |} |}.

Definition parisPoint : AccessPoint xreal :=
  {| ap_bssid := "34:db:fd:43:e3:a1"; signal := Some (Finite (-52)) |}.

(* ================================================================= *)
(** ** The request handler *)

(** A JS value where the source tests the type: null, undefined, a Number,
    a string, or anything else. *)
Inductive jsval (num : Type) : Type :=
| VNull
| VUndefined
| VNumber (x : num)
| VString (s : string)
| VOther.
Arguments VNull {num}.
Arguments VUndefined {num}.
Arguments VNumber {num} x.
Arguments VString {num} s.
Arguments VOther {num}.

(** [Number(s)] of a string and [Number.isNaN]. *)
Class JsParse (num : Type) : Type := {
  Number_of_string : string -> num;
  Number_isNaN : num -> bool
}.

Section Handler.
Context {num : Type} {JN : JsNumber num} {JF : JsFormat num} {JP : JsParse num}.

Definition normalizeSignal (value : jsval num) : outcome (option num) :=
  match value with
  | VNull | VUndefined | VString EmptyString => Ok None
  | VNumber x =>
      if Number_isFinite x then Ok (Some x)
      else Throw (Error "Signal strength must be a finite number.")
  | VString s =>
      let numeric := Number_of_string s in
      if negb (Number_isNaN numeric) && Number_isFinite numeric
      then Ok (Some numeric)
      else Throw (Error "Signal strength must be a finite number.")
  | VOther => Throw (Error "Signal strength must be a finite number.")
  end.

(** An access point as [extractParams] hands it over. *)
Record RawPoint : Type := {
  raw_bssid : string;
  raw_signal : jsval num
}.

(** The callback of [rawAccessPoints.map] in the handler. *)
Definition normalizePoint (point : RawPoint) : outcome (AccessPoint num) :=
  normalized <- normalizeBssid (raw_bssid point) ;;
  normalizedSignal <- normalizeSignal (raw_signal point) ;;
  Ok {| ap_bssid := normalized; signal := normalizedSignal |}.

(** [array.map(f)] with a callback that can throw. *)
Fixpoint mapOutcome {A B : Type} (f : A -> outcome B) (l : list A)
  : outcome (list B) :=
  match l with
  | [] => Ok []
  | a :: l' => b <- f a ;; bs <- mapOutcome f l' ;; Ok (b :: bs)
  end.

(** [Array.from(new Map(accessPoints.map((point) => [point.bssid, point]))
    .values())]. *)
Definition uniqueAccessPoints (accessPoints : list (AccessPoint num))
  : list (AccessPoint num) :=
  map snd
    (fold_left (fun m point => map_set m (ap_bssid point) point)
       accessPoints []).

(** One iteration of the inner loop of [collectAppleDevices]; the state is
    [(seen, aggregated)]. *)
Definition collectDevice (s : list string * list (Device num))
  (device : Device num) : list string * list (Device num) :=
  let '(seen, aggregated) := s in
  match bssid device, location device with
  | Some device_bssid, Some _ =>
      match tryNormalizeBssid device_bssid with
      | None => s
      | Some normalized =>
          if negb (truthy normalized) || existsb (String.eqb normalized) seen
          then s
          else (seen ++ [normalized], aggregated ++ [device])
      end
  | _, _ => s
  end.

(** The outer loop of [collectAppleDevices], over the access points. *)
Fixpoint collect_loop (fetch : list Z -> outcome FetchResponse)
  (includeAll : bool) (accessPoints : list (AccessPoint num))
  (s : list string * list (Device num))
  : M (list string * list (Device num)) :=
  match accessPoints with
  | [] => ret s
  | point :: rest =>
      devices <~ requestAppleDevices fetch [point] includeAll ;;
      collect_loop fetch includeAll rest (fold_left collectDevice devices s)
  end.

Definition collectAppleDevices (fetch : list Z -> outcome FetchResponse)
  (accessPoints : list (AccessPoint num)) (includeAll : bool)
  : M (list (Device num)) :=
  '(_, aggregated) <~ collect_loop fetch includeAll accessPoints ([], []) ;;
  ret aggregated.

(** The handler from the access points that [extractParams] returns to the
    value of [formatted], before the fallback is added. *)
Definition locateAccessPoints (fetch : list Z -> outcome FetchResponse)
  (rawAccessPoints : list RawPoint) (includeAll : bool) : M FormatResponse :=
  accessPoints <~ lift (mapOutcome normalizePoint rawAccessPoints) ;;
  let unique := uniqueAccessPoints accessPoints in
  parsedDevices <~ collectAppleDevices fetch unique includeAll ;;
  ret (formatResults parsedDevices accessPoints includeAll).

(** The status of the response in the [catch] of the handler:
    [error.statusCode] when it is a number, 400 otherwise. *)
Definition statusCodeOf (error : exn) : Z :=
  match error with
  | AppleServiceError _ statusCode _ => statusCode
  | Error _ => 400
  end.

End Handler.
Arguments RawPoint num : clear implicits.

(** The BSSID, normalized, of a device that [collectAppleDevices] keeps. *)
Definition normalizedBssid {num : Type} (device : Device num) : option string :=
  match bssid device with
  | Some device_bssid => tryNormalizeBssid device_bssid
  | None => None
  end.

(** A device with a location and a BSSID that normalizes. *)
Definition usable {num : Type} (device : Device num) : Prop :=
  location device <> None /\ normalizedBssid device <> None.

(** The last of the points with this BSSID. *)
Definition lastOf {num : Type} (key : string)
  (accessPoints : list (AccessPoint num)) : option (AccessPoint num) :=
  fold_left
    (fun found point =>
       if String.eqb (ap_bssid point) key then Some point else found)
    accessPoints None.

(** An implementation of [JsParse] on exact reals that reads a decimal
    integer, with or without a sign, and gives [NaN] for every other
    string; [Number(s)] agrees with it on the decimal integers. *)
Definition integerParse : JsParse xreal :=
  {| Number_of_string :=
       fun s =>
         match NilEmpty.int_of_string s with
         | Some digits => Finite (IZR (Z.of_int digits))
         | None => NaN
         end;
     Number_isNaN :=
       fun x => match x with NaN => true | _ => false end |}.

Definition signalError : exn := Error "Signal strength must be a finite number.".
Definition bssidError : exn :=
  Error "Each BSSID must contain 12 hexadecimal characters.".

(** What holds of the [Map] of the handler after the points [done]. *)
Definition indexed {num : Type} (done : list (AccessPoint num))
  (m : list (string * AccessPoint num)) : Prop :=
  NoDup (map fst m)
  /\ map fst m = map ap_bssid (map snd m)
  /\ (forall key, map_get m key = lastOf key done).

(** What holds of [seen] and [aggregated] all along [collectAppleDevices]:
    [seen] lists the normalized BSSIDs of the devices kept, which are all
    different, and every device kept is usable. *)
Definition collected {num : Type} (s : list string * list (Device num)) : Prop :=
  map normalizedBssid (snd s) = map Some (fst s)
  /\ NoDup (fst s)
  /\ Forall usable (snd s).

(** A response of the service for one access point, the transport that
    always gives it, and a raw point as the request carries it. *)
Definition parisBody : list Z :=
  [0; 1; 0; 0; 0; 1; 0; 0; 0; 0;
   18; 32; 10; 17; 51; 52; 58; 100; 98; 58; 102; 100; 58; 52; 51; 58; 101;
   51; 58; 97; 49; 18; 11; 8; 244; 140; 213; 153; 18; 16; 184; 233; 148;
   112; 24; 0].

Definition parisFetch (payload : list Z) : outcome FetchResponse :=
  Ok {| ok := true; status := 200; body := parisBody |}.

Definition parisRaw : RawPoint xreal :=
  {| raw_bssid := "34-DB-FD-43-E3-A1"; raw_signal := VNumber (Finite (-52)) |}.
(* ================================================================= *)
(** * Properties *)

(* ================================================================= *)
(** ** Bits of a varint *)

Lemma land_127_low (n : Z) : Z.land n 127 = n mod 2 ^ 7.
Proof. change 127 with (Z.ones 7). apply Z.land_ones. lia. Qed.

Lemma land_127_range (n : Z) : 0 <= Z.land n 127 < 128.
Proof. rewrite land_127_low. apply Z.mod_pos_bound. lia. Qed.

Lemma continuation_payload (n : Z) :
  Z.land (Z.lor (Z.land n 127) 128) 127 = Z.land n 127.
Proof.
  rewrite Z.land_lor_distr_l, <- Z.land_assoc.
  change (Z.land 127 127) with 127. change (Z.land 128 127) with 0.
  apply Z.lor_0_r.
Qed.

Lemma continuation_flag (n : Z) :
  Z.land (Z.lor (Z.land n 127) 128) 128 = 128.
Proof.
  rewrite Z.land_lor_distr_l, <- Z.land_assoc.
  change (Z.land 127 128) with 0. change (Z.land 128 128) with 128.
  rewrite Z.land_0_r. reflexivity.
Qed.

Lemma small_byte_flag (n : Z) : 0 <= n < 128 -> Z.land n 128 = 0.
Proof.
  intros Hn. apply Z.bits_inj'. intros i Hi.
  rewrite Z.land_spec, Z.bits_0.
  destruct (Z.eq_dec i 7) as [-> | Hne].
  - assert (Hbit : Z.testbit n 7 = false).
    { apply Z.testbit_false; [lia | ].
      rewrite Z.div_small by lia. reflexivity. }
    rewrite Hbit. reflexivity.
  - change 128 with (2 ^ 7). rewrite Z.pow2_bits_false by lia.
    apply andb_false_r.
Qed.

Lemma small_byte_payload (n : Z) : 0 <= n < 128 -> Z.land n 127 = n.
Proof. intros Hn. rewrite land_127_low. apply Z.mod_small. lia. Qed.

Lemma split_low_seven (n : Z) :
  Z.lor (Z.land n 127) (Z.shiftl (Z.shiftr n 7) 7) = n.
Proof.
  apply Z.bits_inj'. intros i Hi.
  rewrite Z.lor_spec, Z.land_spec. change 127 with (Z.ones 7).
  destruct (Z_lt_dec i 7) as [Hlt | Hge].
  - rewrite Z.ones_spec_low by lia.
    rewrite Z.shiftl_spec_low by lia.
    rewrite andb_true_r, orb_false_r. reflexivity.
  - rewrite Z.ones_spec_high by lia.
    rewrite Z.shiftl_spec by lia. rewrite Z.shiftr_spec by lia.
    rewrite andb_false_r. simpl. f_equal. lia.
Qed.

Lemma accumulate_group (result n shift : Z) :
  0 <= shift ->
  Z.lor (Z.lor result (Z.shiftl (Z.land n 127) shift))
        (Z.shiftl (Z.shiftr n 7) (shift + 7))
  = Z.lor result (Z.shiftl n shift).
Proof.
  intros Hs. rewrite <- Z.lor_assoc. f_equal.
  replace (shift + 7) with (7 + shift) by lia.
  rewrite <- Z.shiftl_shiftl by lia.
  rewrite <- Z.shiftl_lor. rewrite split_low_seven. reflexivity.
Qed.

Lemma encodeVarint_large (n : Z) :
  128 <= n ->
  encodeVarint n = Z.lor (Z.land n 127) 128 :: encodeVarint (Z.shiftr n 7).
Proof.
  intros Hn. rewrite encodeVarint_equation_1.
  destruct (Z_le_dec 128 n); [reflexivity | contradiction].
Qed.

Lemma encodeVarint_small (n : Z) : n < 128 -> encodeVarint n = [n].
Proof.
  intros Hn. rewrite encodeVarint_equation_1.
  destruct (Z_le_dec 128 n); [lia | reflexivity].
Qed.

Lemma shiftr7_nonneg (n : Z) : 0 <= n -> 0 <= Z.shiftr n 7.
Proof. intros Hn. apply Z.shiftr_nonneg. exact Hn. Qed.

(** Reading back the bytes of [encodeVarint x], whatever follows them
    and whatever was accumulated before. *)
Lemma readVarint_loop_encodeVarint (x : Z) :
  0 <= x ->
  forall rest result shift position,
    0 <= shift ->
    readVarint_loop (encodeVarint x ++ rest) result shift position
    = Ok (Z.lor result (Z.shiftl x shift),
          position + Zlength (encodeVarint x)).
Proof.
  assert (Hwf : forall k, 0 <= k -> forall x, 0 <= x -> x < 2 ^ k ->
    forall rest result shift position,
      0 <= shift ->
      readVarint_loop (encodeVarint x ++ rest) result shift position
      = Ok (Z.lor result (Z.shiftl x shift),
            position + Zlength (encodeVarint x))).
  { intros k Hk. pattern k. apply natlike_ind; [ | | exact Hk ]; clear k Hk.
    - intros y Hy Hlt rest result shift position Hs.
      rewrite encodeVarint_small by lia. simpl.
      rewrite small_byte_flag, small_byte_payload by lia. simpl.
      rewrite Zlength_cons, Zlength_nil. reflexivity.
    - intros k Hk IH y Hy Hlt rest result shift position Hs.
      destruct (Z_lt_dec y 128) as [Hsmall | Hlarge].
      + rewrite encodeVarint_small by lia. simpl.
        rewrite small_byte_flag, small_byte_payload by lia. simpl.
        rewrite Zlength_cons, Zlength_nil. reflexivity.
      + rewrite encodeVarint_large by lia. simpl.
        rewrite continuation_flag, continuation_payload. simpl.
        rewrite IH.
        * rewrite accumulate_group by lia. rewrite Zlength_cons.
          f_equal. f_equal. lia.
        * apply shiftr7_nonneg. exact Hy.
        * rewrite Z.shiftr_div_pow2 by lia.
          apply Z.div_lt_upper_bound; [lia | ].
          rewrite Z.pow_succ_r in Hlt by lia.
          assert (2 ^ k <= 2 ^ 7 * 2 ^ k) by nia. nia.
        * lia. }
  intros Hx. apply (Hwf (Z.succ (Z.log2 x))).
  - pose proof (Z.log2_nonneg x). lia.
  - exact Hx.
  - destruct (Z.eq_dec x 0) as [-> | Hne]; [reflexivity | ].
    apply Z.log2_spec. lia.
Qed.

(** C1. Decoding the bytes of [encodeVarint x] from offset 0 gives back [x]
    and the number of bytes, for every [x] from 0 to 2^63-1. *)
Theorem varint_roundtrip (x : Z) :
  0 <= x <= 2 ^ 63 - 1 ->
  readVarint (encodeVarint x) 0 = Ok (x, Zlength (encodeVarint x)).
Proof.
  intros Hx. unfold readVarint. simpl skipn.
  rewrite <- (app_nil_r (encodeVarint x)) at 1.
  rewrite readVarint_loop_encodeVarint by lia.
  rewrite Z.shiftl_0_r, Z.lor_0_l. reflexivity.
Qed.

Lemma varint_roundtrip_witness :
  0 <= 4885661300 <= 2 ^ 63 - 1 /\
  readVarint (encodeVarint 4885661300) 0
  = Ok (4885661300, Zlength (encodeVarint 4885661300)).
Proof.
  split; [lia | apply (varint_roundtrip 4885661300); lia].
Defined.

(* ================================================================= *)
(** ** What [readVarint] returns *)

Lemma Zlength_nonneg {A : Type} (l : list A) : 0 <= Zlength l.
Proof. rewrite Zlength_correct. lia. Qed.

Lemma readVarint_loop_Ok rest :
  forall result shift position value next,
    readVarint_loop rest result shift position = Ok (value, next) ->
    position < next <= position + Zlength rest
    /\ (0 <= result -> 0 <= shift -> 0 <= value).
Proof.
  induction rest as [ | byte rest IH]; intros result shift position value next.
  - simpl. discriminate.
  - simpl. rewrite Zlength_cons.
    pose proof (Zlength_nonneg rest) as Hlen.
    pose proof (land_127_range byte) as Hbyte.
    destruct (Z.land byte 128 =? 0).
    + intros H. injection H as <- <-. split; [lia | ].
      intros Hr Hs. apply Z.lor_nonneg. split; [exact Hr | ].
      apply Z.shiftl_nonneg. lia.
    + intros H. apply IH in H. destruct H as [Hpos Hval]. split; [lia | ].
      intros Hr Hs. apply Hval; [ | lia].
      apply Z.lor_nonneg. split; [exact Hr | ].
      apply Z.shiftl_nonneg. lia.
Qed.

Lemma readVarint_loop_Throw rest :
  forall result shift position e,
    readVarint_loop rest result shift position = Throw e ->
    e = truncatedVarint.
Proof.
  induction rest as [ | byte rest IH]; intros result shift position e; simpl.
  - intros H. injection H as <-. reflexivity.
  - destruct (Z.land byte 128 =? 0); [discriminate | apply IH].
Qed.

Lemma readVarint_Ok buffer offset value next :
  readVarint buffer offset = Ok (value, next) ->
  offset < next /\ 0 <= value.
Proof.
  unfold readVarint. intros H. apply readVarint_loop_Ok in H.
  destruct H as [Hpos Hval]. split; [lia | apply Hval; lia].
Qed.

Lemma readVarint_Throw buffer offset e :
  readVarint buffer offset = Throw e -> e = truncatedVarint.
Proof. unfold readVarint. apply readVarint_loop_Throw. Qed.

Lemma decodeInt64_Ok buffer offset value next :
  decodeInt64 buffer offset = Ok (value, next) -> offset < next.
Proof.
  unfold decodeInt64.
  destruct (readVarint buffer offset) as [[v n] | e] eqn:Hread; simpl;
    [ | discriminate].
  intros H. injection H as _ <-. apply readVarint_Ok in Hread. lia.
Qed.

Lemma decodeInt64_Throw buffer offset e :
  decodeInt64 buffer offset = Throw e -> e = truncatedVarint.
Proof.
  unfold decodeInt64.
  destruct (readVarint buffer offset) as [[v n] | e'] eqn:Hread; simpl;
    [discriminate | ].
  intros H. injection H as <-. eapply readVarint_Throw. exact Hread.
Qed.

Lemma skipField_Ok buffer offset wireType next :
  skipField buffer offset wireType = Ok next -> offset < next.
Proof.
  unfold skipField, Number_of_BigInt.
  destruct (wireType =? 0).
  { destruct (readVarint buffer offset) as [[v n] | e] eqn:Hread; simpl;
      [ | discriminate].
    intros H. injection H as <-. apply readVarint_Ok in Hread. lia. }
  destruct (wireType =? 1); [intros H; injection H as <-; lia | ].
  destruct (wireType =? 2).
  { destruct (readVarint buffer offset) as [[v n] | e] eqn:Hread; simpl;
      [ | discriminate].
    intros H. injection H as <-. apply readVarint_Ok in Hread. lia. }
  destruct (wireType =? 5); [intros H; injection H as <-; lia | discriminate].
Qed.

Lemma skipField_Throw buffer offset wireType e :
  skipField buffer offset wireType = Throw e -> decodeError e.
Proof.
  unfold skipField.
  destruct (wireType =? 0).
  { destruct (readVarint buffer offset) as [[v n] | e'] eqn:Hread; simpl;
      [discriminate | ].
    intros H. injection H as <-. left. eapply readVarint_Throw. exact Hread. }
  destruct (wireType =? 1); [discriminate | ].
  destruct (wireType =? 2).
  { destruct (readVarint buffer offset) as [[v n] | e'] eqn:Hread; simpl;
      [discriminate | ].
    intros H. injection H as <-. left. eapply readVarint_Throw. exact Hread. }
  destruct (wireType =? 5); [discriminate | ].
  intros H. injection H as <-. right. exists wireType. reflexivity.
Qed.



(* ================================================================= *)
(** ** Loops that advance an offset *)

Lemma decodes_ret {A : Type} (a : A) : decodes (ret a).
Proof. exists (Ok a). split; [reflexivity | discriminate]. Qed.

Lemma decodes_lift_Throw {A : Type} (e : exn) :
  decodeError e -> decodes (@lift A (Throw e)).
Proof.
  intros He. exists (Throw e). split; [reflexivity | ].
  intros e' H. injection H as <-. exact He.
Qed.

Lemma decodes_bindM {A B : Type} (m : M A) (k : A -> M B) :
  decodes m -> (forall a, m = Some (Ok a) -> decodes (k a)) ->
  decodes (bindM m k).
Proof.
  intros (r & -> & Hr) Hk. destruct r as [a | e]; simpl.
  - apply Hk. reflexivity.
  - exists (Throw e). split; [reflexivity | ].
    intros e' H. injection H as <-. apply Hr. reflexivity.
Qed.

Section WhileLoop.
Context {S : Type}.
Variable offsetOf : S -> Z.
Variable bound : Z.
Variable cond : S -> bool.
Variable body : S -> M S.

Hypothesis cond_bound : forall s, cond s = true -> offsetOf s < bound.
Hypothesis body_decodes : forall s, cond s = true -> decodes (body s).
Hypothesis body_advances :
  forall s s', body s = Some (Ok s') -> offsetOf s < offsetOf s'.

(** A loop whose body moves the offset forward ends within as many
    iterations as there are positions left before the bound. *)
Lemma while_loop_decodes :
  forall fuel s,
    (Z.to_nat (bound - offsetOf s) < fuel)%nat ->
    decodes (while_loop fuel cond body s).
Proof.
  induction fuel as [ | fuel IH]; intros s Hfuel; [lia | ].
  simpl. destruct (cond s) eqn:Hcond; [ | apply decodes_ret].
  apply decodes_bindM; [apply body_decodes; exact Hcond | ].
  intros s' Hbody. apply IH.
  apply cond_bound in Hcond. apply body_advances in Hbody. lia.
Qed.

End WhileLoop.

(** More iterations allowed do not change what a loop that ended
    returned. *)
Lemma while_loop_more_fuel {S : Type} (cond : S -> bool) (body : S -> M S) :
  forall fuel s r,
    while_loop fuel cond body s = Some r ->
    forall fuel', (fuel <= fuel')%nat ->
    while_loop fuel' cond body s = Some r.
Proof.
  induction fuel as [ | fuel IH]; intros s r Hrun fuel' Hle; [discriminate | ].
  destruct fuel' as [ | fuel']; [lia | ].
  simpl in *. destruct (cond s); [ | exact Hrun].
  destruct (body s) as [[s' | e] | ]; simpl in *;
    [ | exact Hrun | discriminate].
  apply (IH _ _ Hrun). lia.
Qed.

Section DecoderEnds.
Context {num : Type} {JN : JsNumber num}.

Lemma parseLocation_body_advances buffer offset latitude longitude
  offset' latitude' longitude' :
  parseLocation_body buffer (offset, latitude, longitude)
  = Ok (offset', latitude', longitude') ->
  offset < offset'.
Proof.
  unfold parseLocation_body, Number_of_BigInt.
  destruct (readVarint buffer offset) as [[tag newOffset] | e] eqn:Htag;
    simpl; [ | discriminate].
  apply readVarint_Ok in Htag.
  destruct (Z.land tag 7 =? 0).
  - destruct (decodeInt64 buffer newOffset) as [[value next] | e] eqn:Hval;
      simpl; [ | discriminate].
    apply decodeInt64_Ok in Hval.
    destruct (Z.shiftr tag 3 =? 1); [intros H; injection H as <- _ _; lia | ].
    destruct (Z.shiftr tag 3 =? 2); intros H; injection H as <- _ _; lia.
  - destruct (skipField buffer newOffset (Z.land tag 7)) as [next | e]
      eqn:Hskip; simpl; [ | discriminate].
    apply skipField_Ok in Hskip.
    intros H. injection H as <- _ _. lia.
Qed.

Lemma parseLocation_body_Throw buffer s e :
  parseLocation_body buffer s = Throw e -> decodeError e.
Proof.
  destruct s as [[offset latitude] longitude].
  unfold parseLocation_body, Number_of_BigInt.
  destruct (readVarint buffer offset) as [[tag newOffset] | e'] eqn:Htag;
    simpl.
  2:{ intros H. injection H as <-. left. eapply readVarint_Throw, Htag. }
  destruct (Z.land tag 7 =? 0).
  - destruct (decodeInt64 buffer newOffset) as [[value next] | e'] eqn:Hval;
      simpl.
    + destruct (Z.shiftr tag 3 =? 1); [discriminate | ].
      destruct (Z.shiftr tag 3 =? 2); discriminate.
    + intros H. injection H as <-. left. eapply decodeInt64_Throw, Hval.
  - destruct (skipField buffer newOffset (Z.land tag 7)) as [next | e']
      eqn:Hskip; simpl; [discriminate | ].
    intros H. injection H as <-. eapply skipField_Throw, Hskip.
Qed.

Lemma decodes_lift_body {A : Type} (r : outcome A) :
  (forall e, r = Throw e -> decodeError e) -> decodes (lift r).
Proof. intros H. exists r. split; [reflexivity | exact H]. Qed.

Lemma parseLocation_loop_decodes buffer fuel :
  (List.length buffer < fuel)%nat ->
  decodes (parseLocation_loop fuel buffer).
Proof.
  intros Hfuel. unfold parseLocation_loop.
  apply (while_loop_decodes (fun '(offset, _, _) => offset) (Zlength buffer)).
  - intros [[offset latitude] longitude] H. lia.
  - intros s _. apply decodes_lift_body.
    intros e. apply parseLocation_body_Throw.
  - intros [[offset latitude] longitude] [[offset' latitude'] longitude'] H.
    unfold lift in H. injection H as H.
    eapply parseLocation_body_advances, H.
  - rewrite Zlength_correct. lia.
Qed.

Lemma parseLocation_decodes buffer : decodes (parseLocation buffer).
Proof.
  unfold parseLocation. apply decodes_bindM.
  - apply parseLocation_loop_decodes. lia.
  - intros [[offset latitude] longitude] _.
    destruct latitude, longitude; apply decodes_ret.
Qed.

Lemma parseWifiDevice_body_advances buffer offset bssid location
  offset' bssid' location' :
  parseWifiDevice_body buffer (offset, bssid, location)
  = Some (Ok (offset', bssid', location')) ->
  offset < offset'.
Proof.
  unfold parseWifiDevice_body, Number_of_BigInt, lift.
  destruct (readVarint buffer offset) as [[tag newOffset] | e] eqn:Htag;
    simpl; [ | discriminate].
  apply readVarint_Ok in Htag.
  destruct ((Z.shiftr tag 3 =? 1) && (Z.land tag 7 =? 2)).
  { destruct (readVarint buffer newOffset) as [[len next] | e] eqn:Hlen;
      simpl; [ | discriminate].
    apply readVarint_Ok in Hlen.
    unfold ret. intros H. injection H as <- _ _. lia. }
  destruct ((Z.shiftr tag 3 =? 2) && (Z.land tag 7 =? 2)).
  { destruct (readVarint buffer newOffset) as [[len next] | e] eqn:Hlen;
      simpl; [ | discriminate].
    apply readVarint_Ok in Hlen.
    destruct (parseLocation (subarray buffer next (next + len)))
      as [[loc | e] | ]; simpl; [ | discriminate | discriminate].
    unfold ret. intros H. injection H as <- _ _. lia. }
  destruct (skipField buffer newOffset (Z.land tag 7)) as [next | e]
    eqn:Hskip; simpl; [ | discriminate].
  apply skipField_Ok in Hskip.
  unfold ret. intros H. injection H as <- _ _. lia.
Qed.

Lemma decodes_readVarint {A : Type} buffer offset (k : Z * Z -> M A) :
  (forall value next,
     readVarint buffer offset = Ok (value, next) -> decodes (k (value, next))) ->
  decodes (bindM (lift (readVarint buffer offset)) k).
Proof.
  intros Hk. apply decodes_bindM.
  - apply decodes_lift_body. intros e He. left.
    eapply readVarint_Throw, He.
  - intros [value next] H. injection H as H. apply Hk, H.
Qed.

Lemma decodes_skipField {A : Type} buffer offset wireType (k : Z -> M A) :
  (forall next, decodes (k next)) ->
  decodes (bindM (lift (skipField buffer offset wireType)) k).
Proof.
  intros Hk. apply decodes_bindM.
  - apply decodes_lift_body. intros e He. eapply skipField_Throw, He.
  - intros next _. apply Hk.
Qed.

Lemma parseWifiDevice_body_decodes buffer s :
  decodes (parseWifiDevice_body buffer s).
Proof.
  destruct s as [[offset bssid] location]. unfold parseWifiDevice_body.
  apply decodes_readVarint. intros tag newOffset _. cbv zeta.
  destruct (_ && _).
  { apply decodes_readVarint. intros len next _. apply decodes_ret. }
  destruct (_ && _).
  { apply decodes_readVarint. intros len next _.
    apply decodes_bindM; [apply parseLocation_decodes | ].
    intros loc _. apply decodes_ret. }
  apply decodes_skipField. intros next. apply decodes_ret.
Qed.

Lemma parseWifiDevice_loop_decodes buffer fuel :
  (List.length buffer < fuel)%nat ->
  decodes (parseWifiDevice_loop fuel buffer).
Proof.
  intros Hfuel. unfold parseWifiDevice_loop.
  apply (while_loop_decodes (fun '(offset, _, _) => offset) (Zlength buffer)).
  - intros [[offset bssid] location] H. lia.
  - intros s _. apply parseWifiDevice_body_decodes.
  - intros [[offset bssid] location] [[offset' bssid'] location'].
    apply parseWifiDevice_body_advances.
  - rewrite Zlength_correct. lia.
Qed.

Lemma parseWifiDevice_decodes buffer : decodes (parseWifiDevice buffer).
Proof.
  unfold parseWifiDevice. apply decodes_bindM.
  - apply parseWifiDevice_loop_decodes. lia.
  - intros [[offset bssid] location] _. apply decodes_ret.
Qed.

Lemma parseAppleWLoc_body_advances buffer offset devices offset' devices' :
  parseAppleWLoc_body buffer (offset, devices) = Some (Ok (offset', devices')) ->
  offset < offset'.
Proof.
  unfold parseAppleWLoc_body, Number_of_BigInt, lift.
  destruct (readVarint buffer offset) as [[tag newOffset] | e] eqn:Htag;
    simpl; [ | discriminate].
  apply readVarint_Ok in Htag.
  destruct ((Z.shiftr tag 3 =? 2) && (Z.land tag 7 =? 2)).
  { destruct (readVarint buffer newOffset) as [[len next] | e] eqn:Hlen;
      simpl; [ | discriminate].
    apply readVarint_Ok in Hlen.
    destruct (parseWifiDevice (subarray buffer next (next + len)))
      as [[device | e] | ]; simpl; [ | discriminate | discriminate].
    unfold ret. intros H. injection H as <- _. lia. }
  destruct (skipField buffer newOffset (Z.land tag 7)) as [next | e]
    eqn:Hskip; simpl; [ | discriminate].
  apply skipField_Ok in Hskip.
  unfold ret. intros H. injection H as <- _. lia.
Qed.

Lemma parseAppleWLoc_body_decodes buffer s :
  decodes (parseAppleWLoc_body buffer s).
Proof.
  destruct s as [offset devices]. unfold parseAppleWLoc_body.
  apply decodes_readVarint. intros tag newOffset _. cbv zeta.
  destruct (_ && _).
  { apply decodes_readVarint. intros len next _.
    apply decodes_bindM; [apply parseWifiDevice_decodes | ].
    intros device _. apply decodes_ret. }
  apply decodes_skipField. intros next. apply decodes_ret.
Qed.

Lemma parseAppleWLoc_loop_decodes buffer fuel :
  (List.length buffer < fuel)%nat ->
  decodes (parseAppleWLoc_loop fuel buffer).
Proof.
  intros Hfuel. unfold parseAppleWLoc_loop.
  apply (while_loop_decodes (fun '(offset, _) => offset) (Zlength buffer)).
  - intros [offset devices] H. lia.
  - intros s _. apply parseAppleWLoc_body_decodes.
  - intros [offset devices] [offset' devices'].
    apply parseAppleWLoc_body_advances.
  - rewrite Zlength_correct. lia.
Qed.

Lemma parseAppleWLoc_decodes buffer : decodes (parseAppleWLoc buffer).
Proof.
  unfold parseAppleWLoc. apply decodes_bindM.
  - apply parseAppleWLoc_loop_decodes. lia.
  - intros [offset devices] _. apply decodes_ret.
Qed.

End DecoderEnds.

(** C10. The decoders end on every buffer: each returns or throws one of
    the two decode errors; every iteration of their loops, every
    [readVarint] and every [skipField] that returns moves the offset
    forward; and allowing the loops more iterations than the length of the
    buffer changes nothing. *)
Theorem decoders_terminate {num : Type} {JN : JsNumber num} (buffer : list Z) :
  (decodes (parseAppleWLoc buffer)
   /\ decodes (parseWifiDevice buffer)
   /\ decodes (parseLocation buffer))
  /\ (forall offset devices offset' devices',
        parseAppleWLoc_body buffer (offset, devices)
        = Some (Ok (offset', devices')) ->
        offset < offset')
  /\ (forall offset bssid location offset' bssid' location',
        parseWifiDevice_body buffer (offset, bssid, location)
        = Some (Ok (offset', bssid', location')) ->
        offset < offset')
  /\ (forall offset latitude longitude offset' latitude' longitude',
        parseLocation_body buffer (offset, latitude, longitude)
        = Ok (offset', latitude', longitude') ->
        offset < offset')
  /\ (forall offset value next,
        readVarint buffer offset = Ok (value, next) -> offset + 1 <= next)
  /\ (forall offset wireType next,
        skipField buffer offset wireType = Ok next -> offset + 1 <= next)
  /\ (forall fuel, (List.length buffer < fuel)%nat ->
        parseAppleWLoc_loop fuel buffer
        = parseAppleWLoc_loop (S (List.length buffer)) buffer
        /\ parseWifiDevice_loop fuel buffer
           = parseWifiDevice_loop (S (List.length buffer)) buffer
        /\ parseLocation_loop fuel buffer
           = parseLocation_loop (S (List.length buffer)) buffer).
Proof.
  split; [ | split; [ | split; [ | split; [ | split; [ | split]]]]].
  - split; [apply parseAppleWLoc_decodes | ].
    split; [apply parseWifiDevice_decodes | apply parseLocation_decodes].
  - intros offset devices offset' devices'. apply parseAppleWLoc_body_advances.
  - intros offset bssid location offset' bssid' location'.
    apply parseWifiDevice_body_advances.
  - intros offset latitude longitude offset' latitude' longitude'.
    apply parseLocation_body_advances.
  - intros offset value next H. apply readVarint_Ok in H. lia.
  - intros offset wireType next H. apply skipField_Ok in H. lia.
  - intros fuel Hfuel. split; [ | split].
    + destruct (parseAppleWLoc_loop_decodes buffer (S (List.length buffer)))
        as (r & Hr & _); [lia | ].
      rewrite Hr. unfold parseAppleWLoc_loop in *.
      eapply while_loop_more_fuel; [exact Hr | lia].
    + destruct (parseWifiDevice_loop_decodes buffer (S (List.length buffer)))
        as (r & Hr & _); [lia | ].
      rewrite Hr. unfold parseWifiDevice_loop in *.
      eapply while_loop_more_fuel; [exact Hr | lia].
    + destruct (parseLocation_loop_decodes buffer (S (List.length buffer)))
        as (r & Hr & _); [lia | ].
      rewrite Hr. unfold parseLocation_loop in *.
      eapply while_loop_more_fuel; [exact Hr | lia].
Qed.

Lemma decoders_terminate_witness :
  parseAppleWLoc_body (num := xreal) [8; 1; 18; 0] (0, []) = Some (Ok (2, []))
  /\ 0 < 2
  /\ (List.length [8; 1; 18; 0] < 9)%nat
  /\ parseAppleWLoc_loop (num := xreal) 9 [8; 1; 18; 0]
     = parseAppleWLoc_loop 5 [8; 1; 18; 0].
Proof.
  pose proof (@decoders_terminate xreal _ [8; 1; 18; 0]) as H.
  destruct H as (_ & Hadvance & _ & _ & _ & _ & Hfuel).
  split; [reflexivity | ].
  split; [apply (Hadvance 0 [] 2 []); reflexivity | ].
  split; [simpl; lia | ].
  apply (Hfuel 9%nat). simpl. lia.
Defined.

(** The decoder on a response with one device, at latitude 48.856613 and
    longitude 2.352222. *)
Example parseAppleWLoc_one_device :
  parseAppleWLoc (num := xreal)
    [18; 32; 10; 17; 51; 52; 58; 100; 98; 58; 102; 100; 58; 52; 51; 58;
     101; 51; 58; 97; 49; 18; 11; 8; 244; 140; 213; 153; 18; 16; 184; 233;
     148; 112; 24; 0]
  = Some (Ok [ {| bssid := Some "34:db:fd:43:e3:a1"%string;
                  location :=
                    Some {| latitudeE8 := Finite 4885661300;
                            longitudeE8 := Finite 235222200 |} |} ]).
Proof. reflexivity. Qed.

(* ================================================================= *)
(** ** The location submessage, field by field *)

Lemma decodeInt64_readVarint buffer offset :
  decodeInt64 buffer offset
  = ('(value, next) <- readVarint buffer offset ;; Ok (toSigned64 value, next)).
Proof. reflexivity. Qed.

Lemma toSigned64_range value :
  0 <= value < 2 ^ 64 ->
  - 2 ^ 63 <= toSigned64 value < 2 ^ 63
  /\ toSigned64 value mod 2 ^ 64 = value.
Proof.
  intros Hv. unfold toSigned64.
  destruct (Z.ltb_spec (2 ^ 63 - 1) value) as [Hbig | Hsmall].
  - split; [lia | ].
    replace (value - 2 ^ 64) with (value + (-1) * 2 ^ 64) by lia.
    rewrite Z.mod_add by lia. apply Z.mod_small. lia.
  - split; [lia | apply Z.mod_small; lia].
Qed.




Section LocationFields.
Context {num : Type} {JN : JsNumber num}.



End LocationFields.



(* ================================================================= *)
(** ** The tail of the request *)

Section RequestTail.
Context {num : Type} {JN : JsNumber num}.

(** C4. For a non-empty list of access points the message ends with the
    tag [0x18] and the value 0, then the tag [0x20] and a value that is 1
    exactly when one access point was given and [includeAll] is false, and
    0 otherwise. *)
Theorem encodeAppleWLocRequest_tail (accessPoints : list (AccessPoint num))
  (includeAll : bool) :
  accessPoints <> [] ->
  exists wrappers returnSingle,
    encodeAppleWLocRequest accessPoints includeAll
    = Ok (wrappers ++ [0x18; 0; 0x20; returnSingle])
    /\ (returnSingle = 1 \/ returnSingle = 0)
    /\ (returnSingle = 1 <->
        List.length accessPoints = 1%nat /\ includeAll = false).
Proof.
  intros Hnonempty.
  exists (Uint8Array_from
            (fold_left (fun message point => message ++ encodeAccessPoint point)
               accessPoints [])).
  exists (if negb includeAll && (List.length accessPoints =? 1)%nat
          then 1 else 0).
  split; [ | split].
  - unfold encodeAppleWLocRequest.
    destruct accessPoints as [ | point points]; [contradiction | ].
    change (List.length (point :: points) =? 0)%nat with false. cbv iota.
    f_equal. unfold Uint8Array_from.
    rewrite (encodeVarint_small 0) by lia.
    destruct (negb includeAll && _).
    + rewrite (encodeVarint_small 1) by lia.
      rewrite <- !app_assoc, !map_app. reflexivity.
    + rewrite (encodeVarint_small 0) by lia.
      rewrite <- !app_assoc, !map_app. reflexivity.
  - destruct (negb includeAll && _); [left | right]; reflexivity.
  - destruct includeAll; simpl.
    + split; [discriminate | intros [_ H]; discriminate H].
    + destruct (Nat.eqb_spec (List.length accessPoints) 1) as [Hone | Hmore].
      * split; [intros _; split; [exact Hone | reflexivity] | reflexivity].
      * split; [discriminate | intros [H _]; contradiction].
Qed.

End RequestTail.

Lemma encodeAppleWLocRequest_tail_witness :
  exists wrappers,
    encodeAppleWLocRequest (num := xreal)
      [ {| ap_bssid := "34:db:fd:43:e3:a1"; signal := None |} ] false
    = Ok (wrappers ++ [0x18; 0; 0x20; 1]).
Proof.
  destruct (@encodeAppleWLocRequest_tail xreal
              [ {| ap_bssid := "34:db:fd:43:e3:a1"; signal := None |} ] false)
    as (wrappers & returnSingle & Heq & _ & Hflag).
  - discriminate.
  - exists wrappers. rewrite Heq.
    replace returnSingle with 1; [reflexivity | ].
    symmetry. apply Hflag. split; reflexivity.
Defined.

(* ================================================================= *)
(** ** The ten bytes before the message *)

Lemma subarray_to_end (buffer : list Z) (begin : Z) :
  0 <= begin ->
  subarray buffer begin (Zlength buffer) = skipn (Z.to_nat begin) buffer.
Proof.
  intros Hbegin. unfold subarray. apply firstn_all2.
  rewrite length_skipn, Zlength_correct. lia.
Qed.

Lemma decodeError_not_service (message : string) (statusCode : Z)
  (details : option Z) :
  ~ decodeError (AppleServiceError message statusCode details).
Proof.
  intros [H | [wireType H]]; discriminate H.
Qed.

Section UpstreamBody.
Context {num : Type} {JN : JsNumber num}.
Variable fetch : list Z -> outcome FetchResponse.

(** C5. With a body of at most 10 bytes the request fails with an
    [AppleServiceError] of status 502, which the parser never throws; with
    a longer body of a successful response, the parser is given the body
    without its first 10 bytes. *)
Theorem requestAppleDevices_body (accessPoints : list (AccessPoint num))
  (includeAll : bool) (protobufRequest : list Z) (response : FetchResponse) :
  encodeAppleWLocRequest accessPoints includeAll = Ok protobufRequest ->
  fetch (buildEnvelope protobufRequest) = Ok response ->
  (Zlength (body response) <= 10 ->
   (exists message details,
      requestAppleDevices fetch accessPoints includeAll
      = Some (Throw (AppleServiceError message 502 details)))
   /\ (ok response = true ->
       requestAppleDevices fetch accessPoints includeAll
       = Some (Throw (AppleServiceError
           "Apple location service returned an unexpected payload." 502 None)))
   /\ (forall buffer message details,
         parseAppleWLoc (num := num) buffer
         <> Some (Throw (AppleServiceError message 502 details))))
  /\ (ok response = true -> 10 < Zlength (body response) ->
      requestAppleDevices fetch accessPoints includeAll
      = parseAppleWLoc (skipn 10 (body response))
      /\ body response = firstn 10 (body response) ++ skipn 10 (body response)
      /\ List.length (firstn 10 (body response)) = 10%nat).
Proof.
  intros Hencode Hfetch. unfold requestAppleDevices, lift.
  rewrite Hencode. cbn [bindM]. rewrite Hfetch. cbn [bindM].
  split.
  - intros Hshort. split; [ | split].
    + destruct (ok response); cbn [negb].
      * destruct (Z.leb_spec (Zlength (body response)) 10); [ | lia].
        eexists. eexists. reflexivity.
      * eexists. eexists. reflexivity.
    + intros ->. cbn [negb].
      destruct (Z.leb_spec (Zlength (body response)) 10); [reflexivity | lia].
    + intros buffer message details Hparse.
      destruct (parseAppleWLoc_decodes (num := num) buffer) as (r & Hr & Herr).
      rewrite Hr in Hparse. injection Hparse as ->.
      apply (decodeError_not_service message 502 details).
      apply Herr. reflexivity.
  - intros -> Hlong. cbn [negb].
    destruct (Z.leb_spec (Zlength (body response)) 10); [lia | ].
    rewrite subarray_to_end by lia.
    split; [reflexivity | ].
    split; [symmetry; apply firstn_skipn | ].
    apply firstn_length_le. rewrite Zlength_correct in Hlong. lia.
Qed.

End UpstreamBody.

Lemma requestAppleDevices_body_witness :
  let point : AccessPoint xreal :=
    {| ap_bssid := "34:db:fd:43:e3:a1"; signal := None |} in
  let short := {| ok := true; status := 200; body := [0; 1; 2] |} in
  let long :=
    {| ok := true; status := 200;
       body := [0; 0; 0; 0; 0; 0; 0; 0; 0; 0; 8; 1] |} in
  requestAppleDevices (fun _ => Ok short) [point] false
  = Some (Throw (AppleServiceError
      "Apple location service returned an unexpected payload." 502 None))
  /\ requestAppleDevices (fun _ => Ok long) [point] false
     = parseAppleWLoc [8; 1].
Proof.
  intros point short long.
  destruct (encodeAppleWLocRequest [point] false) as [request | e] eqn:Hreq;
    [ | discriminate Hreq].
  assert (Hshort : Zlength (body short) <= 10) by (vm_compute; discriminate).
  assert (Hlong : 10 < Zlength (body long)) by reflexivity.
  split.
  - apply (proj1 (proj2 (proj1
      (@requestAppleDevices_body xreal _ (fun _ => Ok short) [point] false
         request short Hreq eq_refl) Hshort))).
    reflexivity.
  - apply (proj1 (proj2
      (@requestAppleDevices_body xreal _ (fun _ => Ok long) [point] false
         request long Hreq eq_refl) eq_refl Hlong)).
Defined.

(* ================================================================= *)
(** ** Canonical BSSIDs *)

Lemma lowerChar_canonical (c : ascii) :
  isHexDigit c = true -> canonicalChar (lowerChar c) = true.
Proof.
  destruct c as [[] [] [] [] [] [] [] []]; vm_compute; congruence.
Qed.

Lemma canonicalChar_fixed (c : ascii) :
  canonicalChar c = true -> isHexDigit c = true /\ lowerChar c = c.
Proof.
  unfold canonicalChar. intros H. apply andb_prop in H. destruct H as [H1 H2].
  split; [exact H1 | apply Ascii.eqb_eq, H2].
Qed.

Lemma normalized_hex_canonical (input : string) :
  string_forall canonicalChar (toLowerCase (stripNonHex input)) = true.
Proof.
  induction input as [ | c input IH]; [reflexivity | ].
  unfold stripNonHex, toLowerCase in *. simpl.
  destruct (isHexDigit c) eqn:Hc; [ | exact IH].
  simpl. rewrite (lowerChar_canonical c Hc), IH. reflexivity.
Qed.

Lemma isHexDigit_colon : isHexDigit ":" = false.
Proof. reflexivity. Qed.

Lemma normalizeBssid_canonical (hex : string) :
  String.length hex = 12%nat ->
  string_forall canonicalChar hex = true ->
  let joined :=
    String.concat ":"
      (map (fun i => slice hex i (i + 2)) (evenIndices (String.length hex))) in
  toLowerCase (stripNonHex joined) = hex.
Proof.
  intros Hlen Hall.
  do 12 (destruct hex as [ | ?c hex]; [discriminate Hlen | ]).
  destruct hex; [ | discriminate Hlen].
  simpl in Hall.
  repeat match type of Hall with
         | (_ && _) = true => apply andb_prop in Hall; destruct Hall as [?H Hall]
         end.
  repeat match goal with
         | H : canonicalChar _ = true |- _ =>
             apply canonicalChar_fixed in H; destruct H as [?Hhex ?Hlow]
         end.
  cbv [String.length evenIndices Nat.div2 seq map slice Nat.add Nat.sub Nat.mul
       substring String.concat append].
  unfold stripNonHex, toLowerCase.
  cbn [string_filter].
  rewrite ?isHexDigit_colon.
  repeat match goal with
         | H : isHexDigit _ = true |- _ => rewrite H; clear H
         end.
  cbn [string_filter string_map].
  repeat match goal with
         | H : lowerChar _ = _ |- _ => rewrite H; clear H
         end.
  reflexivity.
Qed.

(** C9. [normalizeBssid] is idempotent: a string it returns is returned
    unchanged when given back to it; and the three spellings of
    34:db:fd:43:e3:a1 all give that string. *)
Theorem normalizeBssid_idempotent :
  (forall input canonical,
     normalizeBssid input = Ok canonical ->
     normalizeBssid canonical = Ok canonical)
  /\ normalizeBssid "34DBFD43E3A1" = Ok "34:db:fd:43:e3:a1"
  /\ normalizeBssid "34-db-fd-43-e3-a1" = Ok "34:db:fd:43:e3:a1"
  /\ normalizeBssid "34:DB:FD:43:E3:A1" = Ok "34:db:fd:43:e3:a1".
Proof.
  split; [ | repeat split; reflexivity].
  intros input canonical. unfold normalizeBssid at 1.
  pose proof (normalized_hex_canonical input) as Hall.
  set (hex := toLowerCase (stripNonHex input)) in *.
  destruct (Nat.eqb_spec (String.length hex) 12) as [Hlen | Hlen];
    [ | discriminate].
  cbn [negb]. intros H. injection H as <-.
  unfold normalizeBssid.
  rewrite (normalizeBssid_canonical hex Hlen Hall).
  rewrite (proj2 (Nat.eqb_eq _ _) Hlen). reflexivity.
Qed.

Lemma normalizeBssid_idempotent_witness :
  normalizeBssid "34-DB-fd-43-E3-a1" = Ok "34:db:fd:43:e3:a1"
  /\ normalizeBssid "34:db:fd:43:e3:a1" = Ok "34:db:fd:43:e3:a1".
Proof.
  split; [reflexivity | ].
  apply (proj1 normalizeBssid_idempotent "34-DB-fd-43-E3-a1").
  reflexivity.
Defined.

(* ================================================================= *)
(** ** The sentinel location *)

Section Sentinel.
Context {num : Type} {JN : JsNumber num} {JF : JsFormat num}.

Lemma formatDevice_sentinel requestedMap s device :
  sentinelDevice device = true -> formatDevice requestedMap s device = s.
Proof.
  unfold sentinelDevice, formatDevice, isSentinel.
  destruct s as [aggregatedResults triangulationCandidates].
  destruct (bssid device) as [device_bssid | ]; [ | reflexivity].
  destruct (location device) as [device_location | ]; [ | discriminate].
  intros Hsentinel.
  destruct (negb (truthy device_bssid)); [reflexivity | ].
  destruct (tryNormalizeBssid device_bssid) as [normalized | ];
    [ | reflexivity].
  destruct (negb (truthy normalized)); [reflexivity | ].
  rewrite Hsentinel. reflexivity.
Qed.

Lemma formatDevice_keeps requestedMap s device :
  Forall entryNotSentinel (fst s) /\ Forall candidateNotSentinel (snd s) ->
  Forall entryNotSentinel (fst (formatDevice requestedMap s device))
  /\ Forall candidateNotSentinel (snd (formatDevice requestedMap s device)).
Proof.
  destruct s as [aggregatedResults triangulationCandidates].
  simpl. intros [Hresults Hcandidates]. unfold formatDevice.
  destruct (bssid device) as [device_bssid | ]; [ | split; assumption].
  destruct (location device) as [device_location | ]; [ | split; assumption].
  destruct (negb (truthy device_bssid)); [split; assumption | ].
  destruct (tryNormalizeBssid device_bssid) as [normalized | ];
    [ | split; assumption].
  destruct (negb (truthy normalized)); [split; assumption | ].
  match goal with
  | |- context [if ?test then _ else _] => destruct test eqn:Hsentinel
  end; [split; assumption | ].
  match goal with
  | |- context [if ?test then _ else _] => destruct test
  end; simpl.
  - split; apply Forall_app; (split; [assumption | ]);
      constructor; [exact Hsentinel | constructor | exact Hsentinel
                   | constructor].
  - split; [ | assumption].
    apply Forall_app. split; [assumption | ].
    constructor; [exact Hsentinel | constructor].
Qed.

Lemma aggregate_keeps requestedMap devices :
  forall s,
    Forall entryNotSentinel (fst s) /\ Forall candidateNotSentinel (snd s) ->
    Forall entryNotSentinel
      (fst (fold_left (formatDevice requestedMap) devices s))
    /\ Forall candidateNotSentinel
         (snd (fold_left (formatDevice requestedMap) devices s)).
Proof.
  induction devices as [ | device devices IH]; intros s Hs; [exact Hs | ].
  simpl. apply IH. apply formatDevice_keeps. exact Hs.
Qed.

Lemma aggregate_without_sentinels requestedMap devices :
  forall s,
    fold_left (formatDevice requestedMap)
      (filter (fun device => negb (sentinelDevice device)) devices) s
    = fold_left (formatDevice requestedMap) devices s.
Proof.
  induction devices as [ | device devices IH]; intros s; [reflexivity | ].
  simpl. destruct (sentinelDevice device) eqn:Hsentinel; simpl.
  - rewrite (formatDevice_sentinel _ _ _ Hsentinel). apply IH.
  - apply IH.
Qed.

(** C3. No entry of [results] has latitude -180 and longitude -180, and no
    triangulation candidate has; a device whose scaled coordinates are
    (-180, -180) changes nothing in what [formatResults] returns. *)
Theorem formatResults_no_sentinel (devices : list (Device num))
  (requestedAccessPoints : list (AccessPoint num)) (includeAll : bool) :
  Forall entryNotSentinel
    (results (formatResults devices requestedAccessPoints includeAll))
  /\ Forall candidateNotSentinel
       (snd (aggregateDevices
               (fold_left recordRequested requestedAccessPoints []) devices))
  /\ formatResults
       (filter (fun device => negb (sentinelDevice device)) devices)
       requestedAccessPoints includeAll
     = formatResults devices requestedAccessPoints includeAll.
Proof.
  pose proof (aggregate_keeps
                (fold_left recordRequested requestedAccessPoints [])
                devices ([], [])) as Hkeeps.
  destruct Hkeeps as [Hresults Hcandidates];
    [split; constructor | ].
  split; [ | split].
  - unfold formatResults, aggregateDevices.
    destruct (fold_left _ devices ([], []))
      as [aggregatedResults triangulationCandidates].
    simpl in *. destruct includeAll; [exact Hresults | ].
    apply Forall_forall. intros entry Hin. apply filter_In in Hin.
    destruct Hin as [Hin _].
    eapply Forall_forall in Hresults; [exact Hresults | exact Hin].
  - exact Hcandidates.
  - unfold formatResults, aggregateDevices.
    rewrite aggregate_without_sentinels. reflexivity.
Qed.

End Sentinel.

(* ================================================================= *)
(** ** The triangulated estimate *)

(** C7. With fewer than 2 candidate points there is no estimate; an
    estimate that is returned counts every candidate point given in
    [pointsUsed], whatever its weight. *)
Theorem computeTriangulatedLocation_pointsUsed {num : Type}
  {JN : JsNumber num} (points : list (Candidate (num := num))) :
  (Zlength points < 2 -> computeTriangulatedLocation points = None)
  /\ (forall estimate,
        computeTriangulatedLocation points = Some estimate ->
        pointsUsed estimate = Zlength points).
Proof.
  unfold computeTriangulatedLocation. split.
  - intros Hfew. destruct (Z.ltb_spec (Zlength points) 2); [reflexivity | lia].
  - intros estimate. destruct (Zlength points <? 2); [discriminate | ].
    destruct (fold_left accumulatePoint points _) as [[[totalWeight x] y] z].
    destruct (num_le totalWeight (num_of_Z 0)); [discriminate | ].
    intros H. injection H as <-. reflexivity.
Qed.

Lemma xreal_toRadians (d : R) :
  toRadians (Finite d) = Finite (d * PI / 180)%R.
Proof.
  unfold toRadians. simpl. unfold XReal.eqb. decide_reals. reflexivity.
Qed.

Lemma xreal_accumulate_positive (tw x y z a b w : R) :
  (0 < w)%R ->
  exists x' y' z',
    accumulatePoint (Finite tw, Finite x, Finite y, Finite z)
      {| latitude := Finite a; longitude := Finite b; weight := Finite w |}
    = (Finite (tw + w)%R, Finite x', Finite y', Finite z').
Proof.
  intros Hw. unfold accumulatePoint. cbn [weight latitude longitude].
  rewrite !xreal_toRadians. simpl. unfold XReal.ltb. decide_reals.
  simpl. eexists. eexists. eexists. reflexivity.
Qed.

Lemma xreal_accumulate_idle (s : xreal * xreal * xreal * xreal) (a b : xreal) (w : R) :
  (w <= 0)%R ->
  accumulatePoint s {| latitude := a; longitude := b; weight := Finite w |} = s.
Proof.
  intros Hw. destruct s as [[[tw x] y] z].
  unfold accumulatePoint. simpl. unfold XReal.ltb. decide_reals. reflexivity.
Qed.

Lemma computeTriangulatedLocation_pointsUsed_witness :
  let one : Candidate (num := xreal) :=
    {| latitude := Finite 48; longitude := Finite 2; weight := Finite 1 |} in
  let idle : Candidate (num := xreal) :=
    {| latitude := Finite 48; longitude := Finite 2; weight := Finite 0 |} in
  computeTriangulatedLocation [one] = None
  /\ exists estimate,
       computeTriangulatedLocation [one; idle] = Some estimate
       /\ pointsUsed estimate = 2.
Proof.
  intros one idle. split.
  - apply (proj1 (computeTriangulatedLocation_pointsUsed [one])). reflexivity.
  - assert (Hsome : exists estimate,
              computeTriangulatedLocation [one; idle] = Some estimate).
    { unfold computeTriangulatedLocation.
      change (Zlength [one; idle] <? 2) with false. cbv iota.
      cbn [fold_left]. unfold one at 1.
      destruct (xreal_accumulate_positive 0 0 0 0 48 2 1) as (x & y & z & Hacc);
        [lra | ].
      change (num_of_Z 0) with (Finite 0).
      rewrite Hacc. unfold idle at 1.
      rewrite xreal_accumulate_idle by lra.
      cbn [num_le xreal_JsNumber XReal.le]. unfold XReal.leb.
      decide_reals. eexists. reflexivity. }
    destruct Hsome as [estimate Hsome]. exists estimate.
    split; [exact Hsome | ].
    apply (proj2 (computeTriangulatedLocation_pointsUsed [one; idle])
             estimate Hsome).
Defined.

(* ================================================================= *)
(** ** The weight of a signal *)

Lemma xreal_clamp (r : R) :
  Math_max (Math_min (Finite r) (num_of_Z (-5))) (num_of_Z (-120))
  = Finite (Rmax (Rmin r (-5)) (-120)).
Proof.
  simpl. unfold XReal.ltb, Rmax, Rmin.
  destruct (Rlt_dec (-5) r), (Rle_dec r (-5)); try lra; simpl;
    unfold XReal.ltb; decide_reals; first [reflexivity | f_equal; lra].
Qed.

Lemma clamp_range (r : R) :
  (-120 <= Rmax (Rmin r (-5)) (-120) <= -5)%R.
Proof.
  pose proof (Rmin_r r (-5)) as Hupper.
  split; [apply Rmax_r | ].
  apply Rmax_lub; [exact Hupper | lra].
Qed.

Lemma xreal_weight (r : R) :
  weightFromSignal (Finite r)
  = Finite (Rpower 10 (Rmax (Rmin r (-5)) (-120) / 10)).
Proof.
  unfold weightFromSignal. cbn [Number_isFinite xreal_JsNumber XReal.isFinite negb].
  rewrite xreal_clamp. pose proof (clamp_range r) as Hrange.
  set (clamped := Rmax (Rmin r (-5)) (-120)) in *.
  assert (Hdiv : num_div (Finite clamped) (num_of_Z 10) = Finite (clamped / 10)).
  { simpl. unfold XReal.eqb. decide_reals. reflexivity. }
  rewrite Hdiv. cbn [Math_pow num_of_Z xreal_JsNumber XReal.pow].
  unfold XReal.eqb, XReal.ltb. decide_reals. reflexivity.
Qed.



(* ================================================================= *)
(** * Further properties of the codec *)

(* ================================================================= *)
(** ** Varints anywhere in a buffer *)

Lemma skipn_front {A : Type} (front rest : list A) :
  skipn (Z.to_nat (Zlength front)) (front ++ rest) = rest.
Proof.
  rewrite Zlength_correct, Nat2Z.id.
  rewrite skipn_app, skipn_all, Nat.sub_diag. reflexivity.
Qed.

Lemma readVarint_at_front (front rest : list Z) (x : Z) :
  0 <= x ->
  readVarint (front ++ encodeVarint x ++ rest) (Zlength front)
  = Ok (x, Zlength front + Zlength (encodeVarint x)).
Proof.
  intros Hx. unfold readVarint. rewrite skipn_front.
  rewrite readVarint_loop_encodeVarint by lia.
  rewrite Z.shiftl_0_r, Z.lor_0_l. reflexivity.
Qed.

(** X1. A varint written by [encodeVarint] is read back wherever it sits:
    after any bytes and before any bytes, [readVarint] at its first byte
    returns the value and the offset just past its last byte. *)
Theorem readVarint_encodeVarint_anywhere (front rest : list Z) (x : Z) :
  0 <= x ->
  readVarint (front ++ encodeVarint x ++ rest) (Zlength front)
  = Ok (x, Zlength front + Zlength (encodeVarint x)).
Proof. apply readVarint_at_front. Qed.

Lemma readVarint_encodeVarint_anywhere_witness :
  readVarint ([18; 7] ++ encodeVarint (2 ^ 70 + 5) ++ [255]) 2
  = Ok (2 ^ 70 + 5, 2 + Zlength (encodeVarint (2 ^ 70 + 5))).
Proof.
  apply (readVarint_encodeVarint_anywhere [18; 7] [255] (2 ^ 70 + 5)).
  lia.
Defined.

(** Induction along the loop of [encodeVarint]. *)
Lemma encodeVarint_induction (P : Z -> Prop) :
  (forall n, 0 <= n < 128 -> P n) ->
  (forall n, 128 <= n -> P (Z.shiftr n 7) -> P n) ->
  forall n, 0 <= n -> P n.
Proof.
  intros Hsmall Hlarge n Hn.
  assert (Hall : 0 <= n -> P n); [ | exact (Hall Hn)].
  pattern n. apply Z_lt_induction; [ | exact Hn]. clear n Hn.
  intros n IH Hn. destruct (Z_lt_dec n 128) as [Hlt | Hge].
  - apply Hsmall. lia.
  - assert (Hshift : 0 <= Z.shiftr n 7 < n).
    { rewrite Z.shiftr_div_pow2 by lia. split.
      - apply Z.div_pos; lia.
      - apply Z.div_lt_upper_bound; lia. }
    apply Hlarge; [lia | ]. apply IH; lia.
Qed.

Lemma continuation_byte_range (n : Z) :
  128 <= Z.lor (Z.land n 127) 128 < 256.
Proof.
  pose proof (land_127_range n) as Hlow.
  assert (Hsum : Z.lor (Z.land n 127) 128 = Z.land n 127 + 128).
  { rewrite <- Z.lxor_lor, <- Z.add_nocarry_lxor.
    - reflexivity.
    - rewrite <- Z.land_assoc. change (Z.land 127 128) with 0.
      apply Z.land_0_r.
    - rewrite <- Z.land_assoc. change (Z.land 127 128) with 0.
      apply Z.land_0_r. }
  rewrite Hsum. lia.
Qed.

Lemma encodeVarint_isByte (x : Z) :
  0 <= x -> Forall isByte (encodeVarint x).
Proof.
  intros Hx. pattern x. apply encodeVarint_induction; [ | | exact Hx];
    clear x Hx.
  - intros n Hn. rewrite encodeVarint_small by lia.
    constructor; [unfold isByte; lia | constructor].
  - intros n Hn IH. rewrite encodeVarint_large by lia.
    constructor; [ | exact IH].
    pose proof (continuation_byte_range n). unfold isByte. lia.
Qed.

Lemma Uint8Array_from_bytes (l : list Z) :
  Forall isByte l -> Uint8Array_from l = l.
Proof.
  unfold Uint8Array_from. induction 1 as [ | b l Hb Hl IH]; [reflexivity | ].
  simpl. rewrite IH. rewrite Z.mod_small by exact Hb. reflexivity.
Qed.

Lemma encodeVarint_Zlength (x : Z) :
  0 <= x -> Zlength (encodeVarint x) = Z.log2 x / 7 + 1.
Proof.
  intros Hx. pattern x. apply encodeVarint_induction; [ | | exact Hx];
    clear x Hx.
  - intros n Hn. rewrite encodeVarint_small by lia.
    assert (Z.log2 n < 7).
    { destruct (Z.eq_dec n 0) as [-> | Hne]; [reflexivity | ].
      apply Z.log2_lt_pow2; lia. }
    pose proof (Z.log2_nonneg n).
    rewrite Z.div_small by lia. reflexivity.
  - intros n Hn IH. rewrite encodeVarint_large by lia.
    rewrite Zlength_cons, IH.
    assert (7 <= Z.log2 n) by (apply Z.log2_le_pow2; lia).
    rewrite Z.log2_shiftr by lia. rewrite Z.max_r by lia.
    replace (Z.log2 n) with ((Z.log2 n - 7) + 1 * 7) at 2 by lia.
    rewrite Z.div_add by lia. lia.
Qed.

Lemma encodeVarint_shape (x : Z) :
  0 <= x ->
  exists init last,
    encodeVarint x = init ++ [last]
    /\ Forall (fun b => 128 <= b < 256) init
    /\ 0 <= last < 128.
Proof.
  intros Hx. pattern x. apply encodeVarint_induction; [ | | exact Hx];
    clear x Hx.
  - intros n Hn. exists [], n. rewrite encodeVarint_small by lia.
    split; [reflexivity | split; [constructor | lia]].
  - intros n Hn (init & last & Heq & Hinit & Hlast).
    exists (Z.lor (Z.land n 127) 128 :: init), last.
    rewrite encodeVarint_large by lia. rewrite Heq.
    split; [reflexivity | split; [ | exact Hlast]].
    constructor; [apply continuation_byte_range | exact Hinit].
Qed.

(** X2. The bytes of [encodeVarint x], for [x >= 0]: there are
    [log2 x / 7 + 1] of them, every one but the last is in 128..255, the
    last is in 0..127, and a [Uint8Array] holds them unchanged. *)
Theorem encodeVarint_bytes (x : Z) :
  0 <= x ->
  Zlength (encodeVarint x) = Z.log2 x / 7 + 1
  /\ (exists init last,
        encodeVarint x = init ++ [last]
        /\ Forall (fun b => 128 <= b < 256) init
        /\ 0 <= last < 128)
  /\ Uint8Array_from (encodeVarint x) = encodeVarint x.
Proof.
  intros Hx. split; [apply encodeVarint_Zlength, Hx | ].
  split; [apply encodeVarint_shape, Hx | ].
  apply Uint8Array_from_bytes, encodeVarint_isByte, Hx.
Qed.

Lemma encodeVarint_bytes_witness :
  Zlength (encodeVarint (2 ^ 64 - 1)) = 10
  /\ Uint8Array_from (encodeVarint (2 ^ 64 - 1)) = encodeVarint (2 ^ 64 - 1).
Proof.
  destruct (encodeVarint_bytes (2 ^ 64 - 1)) as (Hlen & _ & Hbytes); [lia | ].
  split; [rewrite Hlen; reflexivity | exact Hbytes].
Defined.

(* ================================================================= *)
(** ** What [readVarint] consumes *)








(** X4. A signed 64-bit value written as the varint of its two's
    complement is read back by [decodeInt64]. *)
Theorem decodeInt64_signed_roundtrip (value : Z) :
  - 2 ^ 63 <= value < 2 ^ 63 ->
  decodeInt64 (encodeVarint (value mod 2 ^ 64)) 0
  = Ok (value, Zlength (encodeVarint (value mod 2 ^ 64))).
Proof.
  intros Hvalue.
  assert (Hmod : 0 <= value mod 2 ^ 64 < 2 ^ 64)
    by (apply Z.mod_pos_bound; lia).
  rewrite decodeInt64_readVarint.
  pose proof (readVarint_at_front [] [] (value mod 2 ^ 64) (proj1 Hmod))
    as Hread.
  rewrite app_nil_r in Hread. cbn [app] in Hread.
  rewrite Zlength_nil, Z.add_0_l in Hread. rewrite Hread. cbn [bind].
  f_equal. f_equal. unfold toSigned64.
  destruct (Z_lt_dec value 0) as [Hneg | Hpos].
  - assert (Heq : value mod 2 ^ 64 = value + 2 ^ 64).
    { symmetry. apply Z.mod_unique_pos with (q := -1); lia. }
    rewrite Heq. destruct (Z.ltb_spec (2 ^ 63 - 1) (value + 2 ^ 64)); lia.
  - rewrite Z.mod_small by lia.
    destruct (Z.ltb_spec (2 ^ 63 - 1) value); lia.
Qed.

Lemma decodeInt64_signed_roundtrip_witness :
  decodeInt64 (encodeVarint ((-18000000000) mod 2 ^ 64)) 0
  = Ok (-18000000000, Zlength (encodeVarint ((-18000000000) mod 2 ^ 64))).
Proof.
  apply (decodeInt64_signed_roundtrip (-18000000000)). lia.
Defined.

(* ================================================================= *)
(** ** The shape of a canonical BSSID *)

Lemma string_map_length (f : ascii -> ascii) (s : string) :
  String.length (string_map f s) = String.length s.
Proof. induction s as [ | c s IH]; simpl; [reflexivity | rewrite IH; reflexivity]. Qed.

Lemma normalizeBssid_joinPairs (input : string) :
  normalizeBssid input
  = if negb (String.length (stripNonHex input) =? 12)%nat then
      Throw (Error "Each BSSID must contain 12 hexadecimal characters.")
    else Ok (joinPairs (toLowerCase (stripNonHex input))).
Proof.
  unfold normalizeBssid, joinPairs, toLowerCase.
  rewrite string_map_length. reflexivity.
Qed.

Lemma joinPairs_shape (hex : string) :
  String.length hex = 12%nat ->
  string_forall canonicalChar hex = true ->
  String.length (joinPairs hex) = 17%nat
  /\ stripNonHex (joinPairs hex) = hex
  /\ (forall i c,
        String.get i (joinPairs hex) = Some c ->
        if (i mod 3 =? 2)%nat then c = ":"%char else canonicalChar c = true).
Proof.
  intros Hlen Hall.
  do 12 (destruct hex as [ | ?c hex]; [discriminate Hlen | ]).
  destruct hex; [ | discriminate Hlen].
  simpl in Hall.
  repeat match type of Hall with
         | (_ && _) = true => apply andb_prop in Hall; destruct Hall as [?H Hall]
         end.
  cbv [joinPairs String.length evenIndices Nat.div2 seq map slice Nat.add
       Nat.sub Nat.mul substring String.concat append].
  split; [reflexivity | split].
  - repeat match goal with
           | H : canonicalChar _ = true |- _ =>
               apply canonicalChar_fixed in H; destruct H as [?Hhex _]
           end.
    unfold stripNonHex. cbn [string_filter].
    rewrite ?isHexDigit_colon.
    repeat match goal with
           | H : isHexDigit _ = true |- _ => rewrite H; clear H
           end.
    reflexivity.
  - intros i ch.
    do 17 (destruct i as [ | i];
           [cbn [String.get]; intros Hget; injection Hget as <-;
            first [reflexivity | assumption] | ]).
    cbn [String.get]. discriminate.
Qed.

(** X5. [normalizeBssid] succeeds exactly on the inputs that have 12
    hexadecimal digits, whatever else they contain.  What it returns has 17
    characters, a colon at every third place and a lowercase hexadecimal
    digit elsewhere, and its digits are the lowercased digits of the input
    in order.  On every other input it throws its one error. *)
Theorem normalizeBssid_accepts (input : string) :
  (String.length (stripNonHex input) = 12%nat ->
   exists canonical,
     normalizeBssid input = Ok canonical
     /\ String.length canonical = 17%nat
     /\ stripNonHex canonical = toLowerCase (stripNonHex input)
     /\ (forall i c,
           String.get i canonical = Some c ->
           if (i mod 3 =? 2)%nat then c = ":"%char
           else canonicalChar c = true))
  /\ (String.length (stripNonHex input) <> 12%nat ->
      normalizeBssid input
      = Throw (Error "Each BSSID must contain 12 hexadecimal characters.")).
Proof.
  rewrite normalizeBssid_joinPairs. split.
  - intros Hlen. rewrite (proj2 (Nat.eqb_eq _ _) Hlen). cbn [negb].
    exists (joinPairs (toLowerCase (stripNonHex input))).
    split; [reflexivity | ].
    apply joinPairs_shape.
    + unfold toLowerCase. rewrite string_map_length. exact Hlen.
    + apply normalized_hex_canonical.
  - intros Hlen. rewrite (proj2 (Nat.eqb_neq _ _) Hlen). reflexivity.
Qed.

Lemma normalizeBssid_accepts_witness :
  (exists canonical,
     normalizeBssid "  34db.FD43.e3a1 !" = Ok canonical
     /\ String.length canonical = 17%nat)
  /\ normalizeBssid "34:db:fd:43:e3"
     = Throw (Error "Each BSSID must contain 12 hexadecimal characters.").
Proof.
  split.
  - destruct (proj1 (normalizeBssid_accepts "  34db.FD43.e3a1 !")
                eq_refl) as (canonical & Hok & Hlen & _).
    exists canonical. split; [exact Hok | exact Hlen].
  - apply (proj2 (normalizeBssid_accepts "34:db:fd:43:e3")).
    vm_compute. discriminate.
Defined.

Lemma stripNonHex_app (a b : string) :
  stripNonHex (a ++ b)%string = (stripNonHex a ++ stripNonHex b)%string.
Proof.
  unfold stripNonHex. induction a as [ | c a IH]; [reflexivity | ].
  simpl. destruct (isHexDigit c); simpl; rewrite IH; reflexivity.
Qed.

Lemma isHexDigit_lowerChar (c : ascii) :
  isHexDigit (lowerChar c) = isHexDigit c.
Proof. destruct c as [[] [] [] [] [] [] [] []]; reflexivity. Qed.

Lemma lowerChar_idempotent (c : ascii) : lowerChar (lowerChar c) = lowerChar c.
Proof. destruct c as [[] [] [] [] [] [] [] []]; reflexivity. Qed.

Lemma stripNonHex_toLowerCase (s : string) :
  stripNonHex (toLowerCase s) = toLowerCase (stripNonHex s).
Proof.
  unfold stripNonHex, toLowerCase. induction s as [ | c s IH]; [reflexivity | ].
  simpl. rewrite isHexDigit_lowerChar.
  destruct (isHexDigit c); simpl; rewrite IH; reflexivity.
Qed.

Lemma toLowerCase_idempotent (s : string) :
  toLowerCase (toLowerCase s) = toLowerCase s.
Proof.
  unfold toLowerCase. induction s as [ | c s IH]; [reflexivity | ].
  simpl. rewrite lowerChar_idempotent, IH. reflexivity.
Qed.

Lemma normalizeBssid_toLowerCase (s : string) :
  normalizeBssid (toLowerCase s) = normalizeBssid s.
Proof.
  unfold normalizeBssid.
  rewrite stripNonHex_toLowerCase, toLowerCase_idempotent. reflexivity.
Qed.

(** X6. [normalizeBssid] does not see separators or letter case: a
    character that is not a hexadecimal digit can be dropped from the
    input, and two inputs that differ only in the case of their letters
    get the same answer. *)
Theorem normalizeBssid_insensitive :
  (forall (a b : string) (c : ascii),
     isHexDigit c = false ->
     normalizeBssid (a ++ String c b) = normalizeBssid (a ++ b)%string)
  /\ (forall s s' : string,
        toLowerCase s = toLowerCase s' ->
        normalizeBssid s = normalizeBssid s').
Proof.
  split.
  - intros a b c Hc.
    assert (Hdrop : stripNonHex (String c b) = stripNonHex b).
    { unfold stripNonHex. cbn [string_filter]. rewrite Hc. reflexivity. }
    unfold normalizeBssid. rewrite !stripNonHex_app, Hdrop. reflexivity.
  - intros s s' Hcase.
    rewrite <- (normalizeBssid_toLowerCase s), Hcase.
    apply normalizeBssid_toLowerCase.
Qed.

Lemma normalizeBssid_insensitive_witness :
  normalizeBssid ("34db" ++ String "-" "fd43e3a1")
  = normalizeBssid ("34db" ++ "fd43e3a1")%string
  /\ normalizeBssid "34DBFD43E3A1" = normalizeBssid "34dbFd43e3A1".
Proof.
  split.
  - apply (proj1 normalizeBssid_insensitive "34db" "fd43e3a1" "-"%char).
    reflexivity.
  - apply (proj2 normalizeBssid_insensitive). reflexivity.
Defined.

Lemma normalizeBssid_fixed (input canonical : string) :
  normalizeBssid input = Ok canonical ->
  normalizeBssid canonical = Ok canonical /\ truthy canonical = true.
Proof.
  unfold normalizeBssid at 1.
  pose proof (normalized_hex_canonical input) as Hall.
  set (hex := toLowerCase (stripNonHex input)) in *.
  destruct (Nat.eqb_spec (String.length hex) 12) as [Hlen | Hlen];
    [ | discriminate].
  cbn [negb]. intros H. injection H as <-. split.
  - unfold normalizeBssid.
    rewrite (normalizeBssid_canonical hex Hlen Hall).
    rewrite (proj2 (Nat.eqb_eq _ _) Hlen). reflexivity.
  - destruct (joinPairs_shape hex Hlen Hall) as (Hlen17 & _).
    unfold joinPairs in Hlen17.
    destruct (String.concat _ _); [discriminate Hlen17 | reflexivity].
Qed.

(** X7. [tryNormalizeBssid] returns null exactly on the inputs that do not
    have 12 hexadecimal digits; a string it returns is not empty, so the
    test [!normalized] of its callers only ever rejects null, and it is
    returned again when given back. *)
Theorem tryNormalizeBssid_result (input : string) :
  (tryNormalizeBssid input = None
   <-> String.length (stripNonHex input) <> 12%nat)
  /\ (forall normalized,
        tryNormalizeBssid input = Some normalized ->
        truthy normalized = true
        /\ tryNormalizeBssid normalized = Some normalized).
Proof.
  unfold tryNormalizeBssid. split.
  - rewrite normalizeBssid_joinPairs.
    destruct (Nat.eqb_spec (String.length (stripNonHex input)) 12)
      as [Hlen | Hlen]; cbn [negb].
    + split; [discriminate | contradiction].
    + split; [intros _; exact Hlen | reflexivity].
  - intros normalized.
    destruct (normalizeBssid input) as [canonical | e] eqn:Hnorm;
      [ | discriminate].
    intros H. injection H as <-.
    destruct (normalizeBssid_fixed _ _ Hnorm) as [Hfixed Htruthy].
    split; [exact Htruthy | rewrite Hfixed; reflexivity].
Qed.

Lemma tryNormalizeBssid_result_witness :
  tryNormalizeBssid "not a bssid" = None
  /\ truthy "34:db:fd:43:e3:a1" = true.
Proof.
  split.
  - apply (proj1 (tryNormalizeBssid_result "not a bssid")).
    vm_compute. discriminate.
  - apply (proj2 (tryNormalizeBssid_result "34DBFD43E3A1")
             "34:db:fd:43:e3:a1").
    reflexivity.
Defined.

(* ================================================================= *)
(** ** The decoder on the message of a request *)

Lemma Zlength_app {A : Type} (l l' : list A) :
  Zlength (l ++ l') = Zlength l + Zlength l'.
Proof. rewrite !Zlength_correct, length_app. lia. Qed.







Lemma byte_of_ascii_isByte (c : ascii) : isByte (byte_of_ascii c).
Proof.
  unfold isByte, byte_of_ascii. pose proof (N_ascii_bounded c). lia.
Qed.

Lemma TEXT_ENCODER_encode_isByte (s : string) :
  Forall isByte (TEXT_ENCODER_encode s).
Proof.
  unfold TEXT_ENCODER_encode. apply Forall_map, Forall_forall.
  intros c _. apply byte_of_ascii_isByte.
Qed.



Section RoundTrip.
Context {num : Type} {JN : JsNumber num}.


Lemma encodeAccessPoint_wrapper (point : AccessPoint num) :
  encodeAccessPoint point
  = [0x12] ++ encodeVarint (Zlength (wifiDeviceBytes point))
    ++ wifiDeviceBytes point.
Proof. reflexivity. Qed.





Lemma fold_left_app_flat_map {A B : Type} (f : A -> list B) (l : list A) :
  forall acc,
    fold_left (fun message point => message ++ f point) l acc
    = acc ++ flat_map f l.
Proof.
  induction l as [ | a l IH]; intros acc; cbn [fold_left flat_map].
  - rewrite app_nil_r. reflexivity.
  - rewrite IH, <- app_assoc. reflexivity.
Qed.

Lemma encodeAccessPoint_isByte (point : AccessPoint num) :
  Forall isByte (encodeAccessPoint point).
Proof.
  rewrite encodeAccessPoint_wrapper. unfold wifiDeviceBytes.
  assert (Htag : forall b, 0 <= b < 256 -> Forall isByte [b])
    by (intros b Hb; constructor; [exact Hb | constructor]).
  apply Forall_app. split; [apply Htag; lia | ].
  apply Forall_app. split; [apply encodeVarint_isByte, Zlength_nonneg | ].
  apply Forall_app. split; [apply Htag; lia | ].
  apply Forall_app. split; [apply encodeVarint_isByte, Zlength_nonneg | ].
  apply TEXT_ENCODER_encode_isByte.
Qed.

Lemma wrappersOf_isByte (accessPoints : list (AccessPoint num)) :
  Forall isByte (wrappersOf accessPoints).
Proof.
  unfold wrappersOf. induction accessPoints as [ | point points IH];
    cbn [flat_map]; [constructor | ].
  apply Forall_app. split; [apply encodeAccessPoint_isByte | exact IH].
Qed.


(** The message of a request: the wrappers, then the two flags. *)
Lemma encodeAppleWLocRequest_message (accessPoints : list (AccessPoint num))
  (includeAll : bool) :
  accessPoints <> [] ->
  encodeAppleWLocRequest accessPoints includeAll
  = Ok (wrappersOf accessPoints
        ++ [0x18; 0; 0x20;
            if negb includeAll && (List.length accessPoints =? 1)%nat
            then 1 else 0]).
Proof.
  intros Hnonempty. unfold encodeAppleWLocRequest.
  destruct accessPoints as [ | point points]; [contradiction | ].
  change (List.length (point :: points) =? 0)%nat with false. cbv iota.
  rewrite fold_left_app_flat_map. cbn [app].
  fold (wrappersOf (point :: points)).
  rewrite (encodeVarint_small 0) by lia.
  set (returnSingle :=
         if negb includeAll && (List.length (point :: points) =? 1)%nat
         then 1 else 0).
  assert (Hflag : 0 <= returnSingle < 128)
    by (unfold returnSingle; destruct (negb includeAll && _); lia).
  rewrite (encodeVarint_small returnSingle) by lia.
  rewrite <- !app_assoc. cbn [app].
  rewrite Uint8Array_from_bytes; [reflexivity | ].
  apply Forall_app. split; [apply wrappersOf_isByte | ].
  repeat constructor; unfold isByte; lia.
Qed.


End RoundTrip.


(* ================================================================= *)
(** ** The envelope of a request *)

Lemma buildEnvelope_header (message : list Z) :
  buildEnvelope message
  = envelopeHeader ++ [Zlength message mod 256] ++ message.
Proof.
  unfold buildEnvelope, envelopeHeader, Uint8Array_from.
  cbn [List.concat map]. rewrite app_nil_r, <- !app_assoc. reflexivity.
Qed.

Lemma TEXT_ENCODER_encode_Zlength (s : string) :
  Zlength (TEXT_ENCODER_encode s) = Z.of_nat (String.length s).
Proof.
  unfold TEXT_ENCODER_encode. rewrite Zlength_correct, length_map.
  f_equal. induction s as [ | c s IH]; simpl; [reflexivity | ].
  rewrite IH. reflexivity.
Qed.

Section Envelope.
Context {num : Type} {JN : JsNumber num}.

(** X9. The envelope is a fixed header of 49 bytes, one byte holding the
    length of the message modulo 256, and the message.  The request for
    one access point whose BSSID came out of [normalizeBssid], which is
    what is sent upstream, has a message of 25 bytes, so that its length
    byte is exact and its envelope has 75 bytes. *)
Theorem buildEnvelope_single_request (input canonical : string)
  (pointSignal : option num) (includeAll : bool) :
  (forall message,
     buildEnvelope message
     = envelopeHeader ++ [Zlength message mod 256] ++ message)
  /\ Zlength envelopeHeader = 49
  /\ (normalizeBssid input = Ok canonical ->
      exists message,
        encodeAppleWLocRequest
          [ {| ap_bssid := canonical; signal := pointSignal |} ] includeAll
        = Ok message
        /\ Zlength message = 25
        /\ buildEnvelope message = envelopeHeader ++ [25] ++ message
        /\ Zlength (buildEnvelope message) = 75).
Proof.
  split; [apply buildEnvelope_header | ].
  split; [reflexivity | ].
  intros Hnormalize.
  assert (Hlen : String.length canonical = 17%nat).
  { rewrite normalizeBssid_joinPairs in Hnormalize.
    destruct (Nat.eqb_spec (String.length (stripNonHex input)) 12)
      as [H12 | H12]; cbn [negb] in Hnormalize; [ | discriminate].
    injection Hnormalize as <-.
    apply joinPairs_shape.
    - unfold toLowerCase. rewrite string_map_length. exact H12.
    - apply normalized_hex_canonical. }
  set (point := {| ap_bssid := canonical; signal := pointSignal |}).
  set (message := wrappersOf [point]
         ++ [24; 0; 32;
             if negb includeAll && (List.length [point] =? 1)%nat
             then 1 else 0]).
  assert (Hmessage : Zlength message = 25).
  { unfold message, wrappersOf. cbn [flat_map]. rewrite app_nil_r.
    rewrite encodeAccessPoint_wrapper. unfold wifiDeviceBytes.
    cbn [ap_bssid point].
    rewrite TEXT_ENCODER_encode_Zlength, Hlen.
    rewrite (encodeVarint_small (Z.of_nat 17)) by lia.
    assert (Hdevice : Zlength ([10] ++ [Z.of_nat 17]
                               ++ TEXT_ENCODER_encode canonical) = 19).
    { rewrite !Zlength_app, TEXT_ENCODER_encode_Zlength, Hlen. reflexivity. }
    rewrite Hdevice. rewrite (encodeVarint_small 19) by lia.
    rewrite !Zlength_app, TEXT_ENCODER_encode_Zlength, Hlen. reflexivity. }
  exists message.
  split; [apply encodeAppleWLocRequest_message; discriminate | ].
  split; [exact Hmessage | ].
  rewrite buildEnvelope_header, Hmessage. split; [reflexivity | ].
  rewrite !Zlength_app, Hmessage. reflexivity.
Qed.

End Envelope.

Lemma buildEnvelope_single_request_witness :
  exists message,
    encodeAppleWLocRequest (num := xreal)
      [ {| ap_bssid := "34:db:fd:43:e3:a1"; signal := None |} ] false
    = Ok message
    /\ Zlength (buildEnvelope message) = 75.
Proof.
  destruct (proj2 (proj2 (@buildEnvelope_single_request xreal _
              "34DBFD43E3A1" "34:db:fd:43:e3:a1" None false)) eq_refl)
    as (message & Hmessage & _ & _ & Hlength).
  exists message. split; [exact Hmessage | exact Hlength].
Defined.

(* ================================================================= *)
(** ** The map of requested signals *)

Lemma map_get_set {V : Type} (m : list (string * V)) (key key' : string)
  (value : V) :
  map_get (map_set m key value) key'
  = if String.eqb key key' then Some value else map_get m key'.
Proof.
  induction m as [ | [k v] m IH]; cbn [map_set map_get].
  - destruct (String.eqb key key'); reflexivity.
  - destruct (String.eqb_spec k key) as [-> | Hne]; cbn [map_get].
    + destruct (String.eqb key key'); reflexivity.
    + rewrite IH. destruct (String.eqb_spec k key') as [-> | Hne'].
      * destruct (String.eqb_spec key key') as [-> | _];
          [contradiction | reflexivity].
      * reflexivity.
Qed.

Lemma map_set_keys {V : Type} (m : list (string * V)) (key : string)
  (value : V) :
  map fst (map_set m key value)
  = if map_has m key then map fst m else map fst m ++ [key].
Proof.
  unfold map_has. induction m as [ | [k v] m IH]; cbn [map_set map_get map].
  - reflexivity.
  - destruct (String.eqb_spec k key) as [-> | Hne]; cbn [map fst].
    + reflexivity.
    + rewrite IH. destruct (map_get m key); reflexivity.
Qed.

Lemma map_get_In {V : Type} (m : list (string * V)) (key : string) :
  map_has m key = true <-> In key (map fst m).
Proof.
  unfold map_has. induction m as [ | [k v] m IH]; cbn [map_get map fst In].
  - split; [discriminate | contradiction].
  - destruct (String.eqb_spec k key) as [-> | Hne].
    + split; [intros _; left; reflexivity | reflexivity].
    + rewrite IH. split; [intros H; right; exact H | ].
      intros [H | H]; [contradiction | exact H].
Qed.

Section Requested.
Context {num : Type} {JN : JsNumber num}.

Lemma recordRequested_get (m : list (string * list num))
  (point : AccessPoint num) (key : string) :
  map_get (recordRequested m point) key
  = if String.eqb (ap_bssid point) key
    then Some (orEmpty (map_get m key) ++ keptSignal point)
    else map_get m key.
Proof.
  unfold recordRequested. rewrite map_get_set.
  destruct (String.eqb_spec (ap_bssid point) key) as [-> | Hne];
    [ | reflexivity].
  f_equal. unfold keptSignal, orEmpty.
  destruct (map_get m key) as [existing | ];
    destruct (signal point) as [value | ]; try destruct (Number_isFinite value);
    rewrite ?app_nil_r; reflexivity.
Qed.

Lemma signalsFor_unrequested (points : list (AccessPoint num)) (key : string) :
  requested key points = false -> signalsFor key points = [].
Proof.
  unfold requested, signalsFor.
  induction points as [ | point points IH]; cbn [existsb flat_map];
    [reflexivity | ].
  destruct (String.eqb (ap_bssid point) key); cbn [orb]; [discriminate | ].
  exact IH.
Qed.

Lemma requestedMap_get (points : list (AccessPoint num)) (key : string) :
  forall m,
    map_get (fold_left recordRequested points m) key
    = if requested key points
      then Some (orEmpty (map_get m key) ++ signalsFor key points)
      else map_get m key.
Proof.
  induction points as [ | point points IH]; intros m; [reflexivity | ].
  cbn [fold_left]. rewrite IH, recordRequested_get.
  unfold requested, signalsFor. cbn [existsb flat_map].
  fold (requested key points). fold (signalsFor key points).
  destruct (String.eqb (ap_bssid point) key); cbn [orb orEmpty].
  - rewrite <- app_assoc.
    destruct (requested key points) eqn:Hrest; [reflexivity | ].
    rewrite (signalsFor_unrequested _ _ Hrest), app_nil_r. reflexivity.
  - reflexivity.
Qed.

End Requested.

Section RequestedMap.
Context {num : Type} {JN : JsNumber num}.

Lemma requestedMap_keys (points : list (AccessPoint num)) :
  forall m,
    NoDup (map fst m) ->
    NoDup (map fst (fold_left recordRequested points m)).
Proof.
  induction points as [ | point points IH]; intros m Hm; [exact Hm | ].
  cbn [fold_left]. apply IH. unfold recordRequested.
  rewrite map_set_keys.
  destruct (map_has m (ap_bssid point)) eqn:Hhas; [exact Hm | ].
  apply NoDup_app; [exact Hm | repeat constructor; intros [] | ].
  intros key Hin [<- | []].
  apply map_get_In in Hin. congruence.
Qed.

(** X10. The map that [formatResults] builds from the request has one key
    per requested BSSID; under a key are the finite signals of the points
    with that BSSID, in the order of the request (a point without a finite
    signal still makes its BSSID a key); a BSSID that was not requested
    is not a key. *)
Theorem requestedMap_signals (points : list (AccessPoint num)) (key : string) :
  map_get (fold_left recordRequested points []) key
  = (if requested key points then Some (signalsFor key points) else None)
  /\ Forall (fun value => Number_isFinite value = true) (signalsFor key points)
  /\ NoDup (map fst (fold_left recordRequested points [])).
Proof.
  split; [ | split].
  - rewrite requestedMap_get. reflexivity.
  - unfold signalsFor. induction points as [ | point points IH];
      cbn [flat_map]; [constructor | ].
    apply Forall_app. split; [ | exact IH].
    destruct (String.eqb (ap_bssid point) key); [ | constructor].
    unfold keptSignal. destruct (signal point) as [value | ]; [ | constructor].
    destruct (Number_isFinite value) eqn:Hfinite; repeat constructor.
    exact Hfinite.
  - apply requestedMap_keys. constructor.
Qed.

End RequestedMap.

(* ================================================================= *)
(** ** What [formatResults] returns *)

Section FormatResults.
Context {num : Type} {JN : JsNumber num} {JF : JsFormat num}.

(** What one iteration of the second loop does to its two arrays. *)
Lemma formatDevice_cases (requestedMap : list (string * list num))
  (s : list ResultEntry * list Candidate) (device : Device num) :
  formatDevice requestedMap s device = s
  \/ exists entry,
       entryOf requestedMap device entry
       /\ isSentinel (entry_latitude entry) (entry_longitude entry) = false
       /\ (formatDevice requestedMap s device = (fst s ++ [entry], snd s)
           \/ exists point,
                candidateOf requestedMap entry point
                /\ formatDevice requestedMap s device
                   = (fst s ++ [entry], snd s ++ [point])).
Proof.
  destruct s as [aggregatedResults triangulationCandidates].
  unfold formatDevice.
  destruct (bssid device) as [device_bssid | ] eqn:Hbssid; [ | left; reflexivity].
  destruct (location device) as [device_location | ] eqn:Hlocation;
    [ | left; reflexivity].
  destruct (negb (truthy device_bssid)); [left; reflexivity | ].
  destruct (tryNormalizeBssid device_bssid) as [normalized | ] eqn:Hnormalized;
    [ | left; reflexivity].
  destruct (negb (truthy normalized)); [left; reflexivity | ].
  match goal with
  | |- context [if ?test then _ else _] => destruct test eqn:Hsentinel
  end; [left; reflexivity | ].
  right.
  match goal with
  | |- context [aggregatedResults ++ [?entry]] => exists entry
  end.
  split; [ | split; [exact Hsentinel | ]].
  - exists device_bssid, device_location. cbn [entry_bssid entry_latitude
      entry_longitude entry_summary].
    repeat split; try reflexivity; assumption.
  - match goal with
    | |- context [if ?test then _ else _] => destruct test eqn:Hweight
    end.
    + right. eexists. split; cycle 1; [reflexivity | ].
      unfold candidateOf. cbn [latitude longitude weight entry_bssid
        entry_latitude entry_longitude].
      repeat split; try reflexivity. exact Hweight.
    + left. reflexivity.
Qed.

Lemma aggregated_step requestedMap devices s device :
  In device devices ->
  aggregated requestedMap devices s ->
  aggregated requestedMap devices (formatDevice requestedMap s device)
  /\ (List.length (fst (formatDevice requestedMap s device))
      <= S (List.length (fst s)))%nat.
Proof.
  intros Hin (Hentries & Hpoints & Hlen).
  destruct (formatDevice_cases requestedMap s device)
    as [-> | (entry & Hentry & Hsentinel & [-> | (point & Hpoint & ->)])].
  - split; [split; [ | split]; assumption | lia].
  - unfold aggregated. cbn [fst snd].
    split; [ | rewrite length_app; simpl; lia].
    split; [ | split].
    + apply Forall_app. split; [exact Hentries | ].
      constructor; [ | constructor].
      split; [exact Hsentinel | exists device; split; assumption].
    + eapply Forall_impl; [ | exact Hpoints].
      intros p (e & He & Hp). exists e. split; [ | exact Hp].
      apply in_or_app. left. exact He.
    + rewrite length_app. lia.
  - unfold aggregated. cbn [fst snd].
    split; [ | rewrite length_app; simpl; lia].
    split; [ | split].
    + apply Forall_app. split; [exact Hentries | ].
      constructor; [ | constructor].
      split; [exact Hsentinel | exists device; split; assumption].
    + apply Forall_app. split.
      * eapply Forall_impl; [ | exact Hpoints].
        intros p (e & He & Hp). exists e. split; [ | exact Hp].
        apply in_or_app. left. exact He.
      * constructor; [ | constructor]. exists entry.
        split; [apply in_or_app; right; left; reflexivity | exact Hpoint].
    + rewrite !length_app. simpl. lia.
Qed.

Lemma aggregated_fold requestedMap all :
  forall devices s,
    (forall device, In device devices -> In device all) ->
    aggregated requestedMap all s ->
    aggregated requestedMap all
      (fold_left (formatDevice requestedMap) devices s)
    /\ (List.length (fst (fold_left (formatDevice requestedMap) devices s))
        <= List.length (fst s) + List.length devices)%nat.
Proof.
  induction devices as [ | device devices IH]; intros s Hall Hs.
  - split; [exact Hs | simpl; lia].
  - cbn [fold_left].
    destruct (aggregated_step requestedMap all s device) as [Hstep Hlen];
      [apply Hall; left; reflexivity | exact Hs | ].
    destruct (IH (formatDevice requestedMap s device)) as [Hfold Hlen'];
      [intros d Hd; apply Hall; right; exact Hd | exact Hstep | ].
    split; [exact Hfold | simpl; lia].
Qed.

Lemma aggregateDevices_aggregated requestedMap devices :
  aggregated requestedMap devices (aggregateDevices requestedMap devices)
  /\ (List.length (fst (aggregateDevices requestedMap devices))
      <= List.length devices)%nat.
Proof.
  unfold aggregateDevices.
  destruct (aggregated_fold requestedMap devices devices ([], []))
    as [Hfold Hlen].
  - intros device Hin. exact Hin.
  - split; [constructor | split; [constructor | reflexivity]].
  - split; [exact Hfold | exact Hlen].
Qed.


Lemma orEmpty_requestedMap (points : list (AccessPoint num)) (key : string) :
  orEmpty (map_get (fold_left recordRequested points []) key)
  = signalsFor key points.
Proof.
  rewrite requestedMap_get.
  destruct (requested key points) eqn:Hrequested; [reflexivity | ].
  rewrite (signalsFor_unrequested _ _ Hrequested). reflexivity.
Qed.

Lemma map_has_requestedMap (points : list (AccessPoint num)) (key : string) :
  map_has (fold_left recordRequested points []) key = requested key points.
Proof.
  unfold map_has. rewrite requestedMap_get.
  destruct (requested key points); reflexivity.
Qed.

Lemma results_aggregated (devices : list (Device num))
  (points : list (AccessPoint num)) (includeAll : bool) (entry : ResultEntry) :
  In entry (results (formatResults devices points includeAll)) ->
  In entry
    (fst (aggregateDevices (fold_left recordRequested points []) devices))
  /\ (includeAll = false -> requested (entry_bssid entry) points = true).
Proof.
  unfold formatResults.
  destruct (aggregateDevices _ devices)
    as [aggregatedResults triangulationCandidates].
  cbn [results fst]. destruct includeAll.
  - intros Hin. split; [exact Hin | discriminate].
  - intros Hin. apply filter_In in Hin. destruct Hin as [Hin Hhas].
    split; [exact Hin | ]. intros _.
    rewrite map_has_requestedMap in Hhas. exact Hhas.
Qed.

(** X11. The results of [formatResults]: [found] says whether there is
    one; there are at most as many as devices; each comes from a device
    that has a location and a BSSID that normalizes to the canonical BSSID
    of the result, with the coordinates of the device divided by 1e8 and
    the summary of the finite signals requested for that BSSID; and when
    [includeAll] is false each has the BSSID of a requested point. *)
Theorem formatResults_results (devices : list (Device num))
  (points : list (AccessPoint num)) (includeAll : bool) :
  (found (formatResults devices points includeAll) = true
   <-> results (formatResults devices points includeAll) <> [])
  /\ (List.length (results (formatResults devices points includeAll))
      <= List.length devices)%nat
  /\ (forall entry,
        In entry (results (formatResults devices points includeAll)) ->
        (exists device,
           In device devices
           /\ entryOf (fold_left recordRequested points []) device entry)
        /\ normalizeBssid (entry_bssid entry) = Ok (entry_bssid entry)
        /\ entry_summary entry
           = summarizeSignals (signalsFor (entry_bssid entry) points)
        /\ (includeAll = false ->
            requested (entry_bssid entry) points = true)).
Proof.
  pose proof (aggregateDevices_aggregated
                (fold_left recordRequested points []) devices)
    as [(Hentries & _ & _) Hlength].
  split; [ | split].
  - unfold formatResults.
    destruct (aggregateDevices _ devices)
      as [aggregatedResults triangulationCandidates].
    cbn [found results].
    match goal with
    | |- context [Zlength ?l] => destruct l as [ | entry rest]
    end.
    + split; [discriminate | intros H; contradiction H; reflexivity].
    + split; [discriminate | intros _].
      apply Z.ltb_lt. rewrite Zlength_cons.
      pose proof (Zlength_nonneg rest). lia.
  - unfold formatResults.
    destruct (aggregateDevices _ devices)
      as [aggregatedResults triangulationCandidates].
    cbn [results fst] in *. destruct includeAll; [exact Hlength | ].
    etransitivity; [apply filter_length_le | exact Hlength].
  - intros entry Hin.
    destruct (results_aggregated _ _ _ _ Hin) as [Hagg Hrequested].
    eapply Forall_forall in Hentries; [ | exact Hagg].
    destruct Hentries as (_ & device & Hdevice & Hentry).
    split; [exists device; split; assumption | ].
    destruct Hentry as (b & loc & _ & _ & Hnormalized & _ & _ & Hsummary).
    split; [ | split; [ | exact Hrequested]].
    + unfold tryNormalizeBssid in Hnormalized.
      destruct (normalizeBssid b) as [canonical | e] eqn:Hnorm;
        [ | discriminate].
      injection Hnormalized as ->.
      apply (normalizeBssid_fixed _ _ Hnorm).
    + rewrite Hsummary, orEmpty_requestedMap. reflexivity.
Qed.

(** X12. Triangulation in [formatResults]: every candidate point is the
    place of an aggregated device, weighted by the signals requested for
    its BSSID, and its weight passed the test [weight > 0].  When the
    response has a [triangulated] field there were at least 2 candidates,
    [pointsUsed] is their number and the two labels are the fixed ones;
    with fewer than 2 candidates there is no such field. *)
Theorem formatResults_triangulated (devices : list (Device num))
  (points : list (AccessPoint num)) (includeAll : bool) :
  let requestedMap := fold_left recordRequested points [] in
  let candidates := snd (aggregateDevices requestedMap devices) in
  (forall point,
     In point candidates ->
     exists entry,
       In entry (fst (aggregateDevices requestedMap devices))
       /\ candidateOf requestedMap entry point
       /\ weight point = weightOf (signalsFor (entry_bssid entry) points))
  /\ (forall estimate,
        triangulated (formatResults devices points includeAll) = Some estimate ->
        2 <= Zlength candidates
        /\ tri_pointsUsed estimate = Zlength candidates
        /\ method estimate = "weighted-centroid"
        /\ signalWeightModel estimate = "10^(dBm/10)")
  /\ (Zlength candidates < 2 ->
      triangulated (formatResults devices points includeAll) = None).
Proof.
  intros requestedMap candidates.
  pose proof (aggregateDevices_aggregated requestedMap devices)
    as [(_ & Hpoints & _) _].
  split; [ | split].
  - intros point Hin.
    eapply Forall_forall in Hpoints; [ | exact Hin].
    destruct Hpoints as (entry & Hentry & Hcandidate).
    exists entry. split; [exact Hentry | split; [exact Hcandidate | ]].
    destruct Hcandidate as (_ & _ & Hweight & _).
    rewrite Hweight. unfold requestedMap.
    rewrite orEmpty_requestedMap. reflexivity.
  - intros estimate. unfold formatResults.
    fold requestedMap. unfold candidates.
    destruct (aggregateDevices requestedMap devices)
      as [aggregatedResults triangulationCandidates].
    cbn [triangulated snd]. unfold computeTriangulatedLocation.
    destruct (Z.ltb_spec (Zlength triangulationCandidates) 2);
      [discriminate | ].
    destruct (fold_left accumulatePoint triangulationCandidates _)
      as [[[totalWeight x] y] z].
    destruct (num_le totalWeight (num_of_Z 0)); [discriminate | ].
    intros Hsome. injection Hsome as <-. cbn.
    repeat split; try reflexivity. assumption.
  - unfold formatResults. fold requestedMap. unfold candidates.
    destruct (aggregateDevices requestedMap devices)
      as [aggregatedResults triangulationCandidates].
    cbn [triangulated snd]. unfold computeTriangulatedLocation.
    intros Hfew.
    destruct (Z.ltb_spec (Zlength triangulationCandidates) 2);
      [reflexivity | lia].
Qed.

End FormatResults.

(* ================================================================= *)
(** ** Weights on exact reals *)





Lemma xreal_weight_positive (r : R) :
  exists w : R, weightFromSignal (Finite r) = Finite w /\ (0 < w)%R.
Proof.
  rewrite xreal_weight. eexists. split; [reflexivity | apply exp_pos].
Qed.

Lemma xreal_weight_fold (rs : list R) :
  forall total : R,
    (0 <= total)%R ->
    exists w : R,
      fold_left (fun total signal => num_add total (weightFromSignal signal))
        (map Finite rs) (Finite total) = Finite w
      /\ (total <= w)%R
      /\ (rs <> [] -> (total < w)%R).
Proof.
  induction rs as [ | r rs IH]; intros total Htotal; cbn [map fold_left].
  - exists total. split; [reflexivity | split; [lra | ]].
    intros H. contradiction H. reflexivity.
  - destruct (xreal_weight_positive r) as (w & -> & Hw).
    cbn [num_add xreal_JsNumber XReal.add].
    destruct (IH (total + w)%R ltac:(lra)) as (w' & Hfold & Hle & _).
    exists w'. split; [exact Hfold | split; [lra | intros _; lra]].
Qed.

Lemma xreal_weightOf (rs : list R) :
  exists w : R,
    weightOf (map Finite rs) = Finite w
    /\ (rs = [] -> w = 0%R)
    /\ (rs <> [] -> (0 < w)%R).
Proof.
  unfold weightOf. destruct rs as [ | r rs].
  - exists 0%R. split; [reflexivity | split; [reflexivity | ]].
    intros H. contradiction H. reflexivity.
  - destruct (xreal_weight_fold (r :: rs) 0 ltac:(lra)) as (w & Hfold & _ & Hlt).
    exists w. split; [exact Hfold | split; [discriminate | exact Hlt]].
Qed.

Lemma xreal_scaled (z : Z) :
  num_div (Finite (IZR z)) (num_of_Z 100000000)
  = Finite (IZR z / 100000000).
Proof.
  cbn [num_div num_of_Z xreal_JsNumber XReal.div]. unfold XReal.eqb.
  decide_reals. reflexivity.
Qed.

Lemma xreal_isSentinel (latE8 lonE8 : Z) :
  isSentinel (num_div (Finite (IZR latE8)) (num_of_Z 100000000))
             (num_div (Finite (IZR lonE8)) (num_of_Z 100000000))
  = (latE8 =? -18000000000) && (lonE8 =? -18000000000).
Proof.
  assert (Hone : forall z,
            num_eq (Finite (IZR z / 100000000)) (num_of_Z (-180))
            = (z =? -18000000000)).
  { intros z. cbn [num_eq num_of_Z xreal_JsNumber XReal.eq]. unfold XReal.eqb.
    destruct (Req_dec_T (IZR z / 100000000) (-180)) as [Heq | Hne];
      destruct (Z.eqb_spec z (-18000000000)) as [Hz | Hz]; try reflexivity.
    - exfalso. apply Hz. apply eq_IZR.
      replace (IZR (-18000000000)) with (-180 * 100000000)%R by lra.
      rewrite <- Heq. field.
    - exfalso. apply Hne. rewrite Hz.
      replace (IZR (-18000000000)) with (-180 * 100000000)%R by lra.
      field. }
  unfold isSentinel. rewrite !xreal_scaled, !Hone. reflexivity.
Qed.

Section ExactDevice.
Context {JF : JsFormat xreal}.

(** One iteration of the second loop of [formatResults], on exact reals. *)
Lemma xreal_formatDevice (requestedMap : list (string * list xreal))
  (s : list ResultEntry * list Candidate)
  (device_bssid normalized : string) (latE8 lonE8 : Z) (signals : list R) :
  let device :=
    {| bssid := Some device_bssid;
       location := Some {| latitudeE8 := Finite (IZR latE8);
                           longitudeE8 := Finite (IZR lonE8) |} |} in
  tryNormalizeBssid device_bssid = Some normalized ->
  orEmpty (map_get requestedMap normalized) = map Finite signals ->
  (latE8 = -18000000000 /\ lonE8 = -18000000000 ->
   formatDevice requestedMap s device = s)
  /\ (~ (latE8 = -18000000000 /\ lonE8 = -18000000000) ->
      exists entry,
        entryOf requestedMap device entry
        /\ fst (formatDevice requestedMap s device) = fst s ++ [entry]
        /\ (signals = [] -> snd (formatDevice requestedMap s device) = snd s)
        /\ (signals <> [] ->
            exists point,
              candidateOf requestedMap entry point
              /\ snd (formatDevice requestedMap s device) = snd s ++ [point])).
Proof.
  intros device Hnormalized Hsignals.
  assert (Htruthy : truthy device_bssid = true /\ truthy normalized = true).
  { unfold tryNormalizeBssid in Hnormalized.
    destruct (normalizeBssid device_bssid) as [canonical | e] eqn:Hnorm;
      [ | discriminate].
    injection Hnormalized as ->. split.
    - destruct device_bssid; [discriminate Hnorm | reflexivity].
    - apply (normalizeBssid_fixed _ _ Hnorm). }
  destruct Htruthy as [Htruthy Htruthy'].
  destruct s as [aggregatedResults triangulationCandidates].
  destruct (xreal_weightOf signals) as (w & Hweight & Hzero & Hpositive).
  unfold formatDevice, device. cbn [bssid location latitudeE8 longitudeE8].
  rewrite Htruthy, Hnormalized, Htruthy'. cbn [negb].
  fold (isSentinel
          (num_div (Finite (IZR latE8)) (num_of_Z 100000000))
          (num_div (Finite (IZR lonE8)) (num_of_Z 100000000))).
  rewrite xreal_isSentinel.
  change (match map_get requestedMap normalized with
          | Some signals0 => signals0
          | None => []
          end) with (orEmpty (map_get requestedMap normalized)).
  fold (weightOf (orEmpty (map_get requestedMap normalized))).
  rewrite Hsignals, Hweight.
  split.
  - intros [-> ->]. reflexivity.
  - intros Hnot.
    assert (Htest : (latE8 =? -18000000000) && (lonE8 =? -18000000000) = false).
    { destruct (Z.eqb_spec latE8 (-18000000000));
        destruct (Z.eqb_spec lonE8 (-18000000000)); try reflexivity.
      exfalso. apply Hnot. split; assumption. }
    rewrite Htest.
    match goal with
    | |- context [aggregatedResults ++ [?e]] => exists e
    end.
    split.
    { exists device_bssid, {| latitudeE8 := Finite (IZR latE8);
                              longitudeE8 := Finite (IZR lonE8) |}.
      cbn [entry_bssid entry_latitude entry_longitude entry_summary
           bssid location latitudeE8 longitudeE8].
      rewrite Hsignals. repeat split; try reflexivity. exact Hnormalized. }
    cbn [num_lt num_of_Z xreal_JsNumber XReal.lt]. unfold XReal.ltb.
    destruct (Rlt_dec 0 w) as [Hpos | Hnonpos]; cbn [fst snd].
    + split; [reflexivity | ]. split.
      * intros Hempty. apply Hzero in Hempty. lra.
      * intros _. eexists. split; [ | reflexivity].
        unfold candidateOf.
        cbn [latitude longitude weight entry_bssid entry_latitude
             entry_longitude].
        rewrite Hsignals, Hweight.
        repeat split; try reflexivity.
        cbn [num_lt num_of_Z xreal_JsNumber XReal.lt]. unfold XReal.ltb.
        destruct (Rlt_dec 0 w); [reflexivity | contradiction].
    + split; [reflexivity | ]. split; [reflexivity | ].
      intros Hnonempty. apply Hpositive in Hnonempty. contradiction.
Qed.

(** X14. On exact reals, one iteration of the second loop of
    [formatResults] for a device with a BSSID that normalizes and a
    location: the device is dropped as the sentinel exactly when both of
    its scaled coordinates are -18000000000; otherwise it gives a result,
    and a triangulation candidate exactly when the map holds at least one
    signal for its BSSID. *)
Theorem formatDevice_exact (requestedMap : list (string * list xreal))
  (s : list ResultEntry * list Candidate)
  (device_bssid normalized : string) (latE8 lonE8 : Z) (signals : list R) :
  let device :=
    {| bssid := Some device_bssid;
       location := Some {| latitudeE8 := Finite (IZR latE8);
                           longitudeE8 := Finite (IZR lonE8) |} |} in
  tryNormalizeBssid device_bssid = Some normalized ->
  orEmpty (map_get requestedMap normalized) = map Finite signals ->
  (latE8 = -18000000000 /\ lonE8 = -18000000000 ->
   formatDevice requestedMap s device = s)
  /\ (~ (latE8 = -18000000000 /\ lonE8 = -18000000000) ->
      exists entry,
        entryOf requestedMap device entry
        /\ fst (formatDevice requestedMap s device) = fst s ++ [entry]
        /\ (signals = [] -> snd (formatDevice requestedMap s device) = snd s)
        /\ (signals <> [] ->
            exists point,
              candidateOf requestedMap entry point
              /\ snd (formatDevice requestedMap s device) = snd s ++ [point])).
Proof. apply xreal_formatDevice. Qed.

End ExactDevice.

(* ================================================================= *)
(** ** Signal summaries on exact reals *)







(* ================================================================= *)
(** ** Points that do not contribute *)

Section Contributes.
Context {num : Type} {JN : JsNumber num}.

Lemma accumulatePoint_idle (s : num * num * num * num)
  (point : Candidate (num := num)) :
  contributes point = false -> accumulatePoint s point = s.
Proof.
  unfold contributes, accumulatePoint. destruct s as [[[totalWeight x] y] z].
  intros ->. reflexivity.
Qed.

Lemma accumulate_contributing (points : list (Candidate (num := num))) :
  forall s,
    fold_left accumulatePoint (filter contributes points) s
    = fold_left accumulatePoint points s.
Proof.
  induction points as [ | point points IH]; intros s; [reflexivity | ].
  cbn [filter fold_left].
  destruct (contributes point) eqn:Hpoint; cbn [fold_left].
  - apply IH.
  - rewrite (accumulatePoint_idle _ _ Hpoint). apply IH.
Qed.

(** X16. The place and the [weightSum] of an estimate depend only on the
    points whose weight passes the test [weight > 0]: two lists with the
    same such points, in the same order, that both give an estimate give
    the same one but for [pointsUsed]. *)
Theorem computeTriangulatedLocation_contributing
  (points points' : list (Candidate (num := num))) (estimate estimate' : Estimate) :
  filter contributes points = filter contributes points' ->
  computeTriangulatedLocation points = Some estimate ->
  computeTriangulatedLocation points' = Some estimate' ->
  est_latitude estimate = est_latitude estimate'
  /\ est_longitude estimate = est_longitude estimate'
  /\ weightSum estimate = weightSum estimate'.
Proof.
  intros Hsame. unfold computeTriangulatedLocation.
  destruct (Zlength points <? 2); [discriminate | ].
  destruct (Zlength points' <? 2); [intros _; discriminate | ].
  rewrite <- (accumulate_contributing points).
  rewrite <- (accumulate_contributing points'), Hsame.
  destruct (fold_left accumulatePoint (filter contributes points') _)
    as [[[totalWeight x] y] z].
  destruct (num_le totalWeight (num_of_Z 0)); [discriminate | ].
  intros H H'. injection H as <-. injection H' as <-.
  repeat split; reflexivity.
Qed.

End Contributes.

(* ================================================================= *)
(** ** Estimates on exact reals *)

Lemma xreal_accumulate (p : R * R * R) (tw x y z : R) :
  exists x' y' z' : R,
    accumulatePoint (Finite tw, Finite x, Finite y, Finite z) (finitePoint p)
    = (Finite (tw + countedWeight p), Finite x', Finite y', Finite z').
Proof.
  destruct p as [[lat lon] w]. unfold countedWeight, finitePoint.
  destruct (Rlt_dec 0 w) as [Hpos | Hnonpos].
  - apply xreal_accumulate_positive. exact Hpos.
  - rewrite xreal_accumulate_idle by lra.
    exists x, y, z. rewrite Rplus_0_r. reflexivity.
Qed.

Lemma xreal_accumulate_all (points : list (R * R * R)) :
  forall tw x y z : R,
    exists x' y' z' : R,
      fold_left accumulatePoint (map finitePoint points)
        (Finite tw, Finite x, Finite y, Finite z)
      = (Finite (tw + totalWeightOf points), Finite x', Finite y', Finite z').
Proof.
  induction points as [ | p points IH]; intros tw x y z;
    cbn [map fold_left].
  - exists x, y, z. unfold totalWeightOf. cbn [fold_right].
    rewrite Rplus_0_r. reflexivity.
  - destruct (xreal_accumulate p tw x y z) as (x1 & y1 & z1 & ->).
    destruct (IH (tw + countedWeight p)%R x1 y1 z1) as (x' & y' & z' & ->).
    exists x', y', z'. unfold totalWeightOf. cbn [fold_right].
    fold (totalWeightOf points).
    replace (tw + (countedWeight p + totalWeightOf points))%R
      with (tw + countedWeight p + totalWeightOf points)%R by ring.
    reflexivity.
Qed.

Lemma totalWeightOf_nonneg (points : list (R * R * R)) :
  (0 <= totalWeightOf points)%R.
Proof.
  induction points as [ | p points IH];
    [unfold totalWeightOf; cbn [fold_right]; lra | ].
  change (totalWeightOf (p :: points))
    with (countedWeight p + totalWeightOf points)%R.
  assert (0 <= countedWeight p)%R.
  { destruct p as [[lat lon] w]. unfold countedWeight.
    destruct (Rlt_dec 0 w); lra. }
  lra.
Qed.

(** When [computeTriangulatedLocation] gives an estimate, on exact reals. *)
Lemma xreal_estimate (points : list (R * R * R)) :
  (Zlength points < 2 \/ (totalWeightOf points <= 0)%R ->
   computeTriangulatedLocation (map finitePoint points) = None)
  /\ (2 <= Zlength points -> (0 < totalWeightOf points)%R ->
      exists estimate,
        computeTriangulatedLocation (map finitePoint points) = Some estimate
        /\ weightSum estimate = Finite (totalWeightOf points)
        /\ pointsUsed estimate = Zlength points).
Proof.
  assert (Hcount : Zlength (map finitePoint points) = Zlength points)
    by (rewrite !Zlength_correct, length_map; reflexivity).
  destruct (xreal_accumulate_all points 0 0 0 0) as (x & y & z & Hfold).
  rewrite Rplus_0_l in Hfold.
  unfold computeTriangulatedLocation. rewrite Hcount.
  change (num_of_Z 0) with (Finite 0). rewrite Hfold.
  cbn [num_le xreal_JsNumber XReal.le]. unfold XReal.leb.
  split.
  - intros [Hfew | Hnone].
    + destruct (Z.ltb_spec (Zlength points) 2); [reflexivity | lia].
    + destruct (Zlength points <? 2); [reflexivity | ].
      destruct (Rle_dec (totalWeightOf points) 0); [reflexivity | lra].
  - intros Hmany Hsome.
    destruct (Z.ltb_spec (Zlength points) 2); [lia | ].
    destruct (Rle_dec (totalWeightOf points) 0); [lra | ].
    eexists. split; [reflexivity | split; reflexivity].
Qed.



Lemma xreal_contributes (lat lon w : R) :
  contributes (finitePoint (lat, lon, w))
  = if Rlt_dec 0 w then true else false.
Proof. reflexivity. Qed.

Lemma computeTriangulatedLocation_contributing_witness :
  let points := map finitePoint [(48, 2, 1); (0, 0, -3); (48, 2.01, 1)]%R in
  let points' := map finitePoint [(48, 2, 1); (48, 2.01, 1); (7, 7, 0)]%R in
  exists estimate estimate',
    computeTriangulatedLocation points = Some estimate
    /\ computeTriangulatedLocation points' = Some estimate'
    /\ est_latitude estimate = est_latitude estimate'
    /\ est_longitude estimate = est_longitude estimate'
    /\ weightSum estimate = weightSum estimate'.
Proof.
  intros points points'.
  assert (Hsame : filter contributes points = filter contributes points').
  { unfold points, points'. cbn [map filter]. rewrite !xreal_contributes.
    decide_reals. reflexivity. }
  assert (Htotal : forall a b c : R * R * R,
            (0 < countedWeight a)%R ->
            (0 < totalWeightOf [a; b; c])%R).
  { intros a b c Ha. pose proof (totalWeightOf_nonneg [b; c]) as Hrest.
    change (totalWeightOf [a; b; c])
      with (countedWeight a + totalWeightOf [b; c])%R. lra. }
  assert (Hfirst : (0 < countedWeight (48, 2, 1))%R).
  { unfold countedWeight. decide_reals. }
  destruct (proj2 (xreal_estimate [(48, 2, 1); (0, 0, -3); (48, 2.01, 1)]%R))
    as (estimate & Hestimate & _);
    [rewrite !Zlength_cons, Zlength_nil; lia | apply Htotal, Hfirst | ].
  destruct (proj2 (xreal_estimate [(48, 2, 1); (48, 2.01, 1); (7, 7, 0)]%R))
    as (estimate' & Hestimate' & _);
    [rewrite !Zlength_cons, Zlength_nil; lia | apply Htotal, Hfirst | ].
  exists estimate, estimate'.
  split; [exact Hestimate | split; [exact Hestimate' | ]].
  apply (computeTriangulatedLocation_contributing points points'
           estimate estimate' Hsame Hestimate Hestimate').
Defined.

(* ================================================================= *)
(** ** One device, one requested point *)

Lemma paris_aggregate :
  exists entry point,
    aggregateDevices (JF := blankFormat)
      (fold_left recordRequested [parisPoint] []) [parisDevice]
    = ([entry], [point])
    /\ entry_bssid entry = "34:db:fd:43:e3:a1"
    /\ In entry
         (results (formatResults (JF := blankFormat) [parisDevice]
                     [parisPoint] false)).
Proof.
  pose proof (xreal_formatDevice (JF := blankFormat)
                (fold_left recordRequested [parisPoint] []) ([], [])
                "34:db:fd:43:e3:a1" "34:db:fd:43:e3:a1"
                4885661300 235222200 [(-52)%R] eq_refl eq_refl) as [_ Hkept].
  destruct Hkept as (entry & Hentry & Hfst & _ & Hsnd); [lia | ].
  destruct Hsnd as (point & _ & Hsnd); [discriminate | ].
  assert (Hbssid : entry_bssid entry = "34:db:fd:43:e3:a1").
  { destruct Hentry as (b & loc & Hb & _ & Hnormalized & _).
    injection Hb as <-. injection Hnormalized as <-. reflexivity. }
  assert (Hagg : aggregateDevices (JF := blankFormat)
                   (fold_left recordRequested [parisPoint] []) [parisDevice]
                 = ([entry], [point])).
  { unfold aggregateDevices. cbn [fold_left].
    apply injective_projections; [exact Hfst | exact Hsnd]. }
  exists entry, point. split; [exact Hagg | split; [exact Hbssid | ]].
  unfold formatResults. rewrite Hagg. cbn [results filter].
  rewrite Hbssid. left. reflexivity.
Qed.

Lemma formatResults_results_witness :
  exists entry,
    In entry
      (results (formatResults (JF := blankFormat) [parisDevice] [parisPoint]
                  false))
    /\ normalizeBssid (entry_bssid entry) = Ok (entry_bssid entry)
    /\ requested (entry_bssid entry) [parisPoint] = true.
Proof.
  destruct paris_aggregate as (entry & point & _ & _ & Hin).
  exists entry. split; [exact Hin | ].
  destruct (proj2 (proj2 (formatResults_results (JF := blankFormat)
              [parisDevice] [parisPoint] false)) entry Hin)
    as (_ & Hcanonical & _ & Hrequested).
  split; [exact Hcanonical | apply Hrequested; reflexivity].
Defined.

Lemma formatResults_triangulated_witness :
  (exists entry point,
     In point
       (snd (aggregateDevices (JF := blankFormat)
               (fold_left recordRequested [parisPoint] []) [parisDevice]))
     /\ candidateOf (JF := blankFormat)
          (fold_left recordRequested [parisPoint] []) entry point)
  /\ triangulated (formatResults (JF := blankFormat) [parisDevice]
                     [parisPoint] false) = None.
Proof.
  destruct paris_aggregate as (entry & point & Hagg & _ & _).
  pose proof (formatResults_triangulated (JF := blankFormat)
                [parisDevice] [parisPoint] false) as Hall.
  cbv zeta in Hall. destruct Hall as (Hcandidate & _ & Hfew).
  split.
  - assert (Hin : In point
              (snd (aggregateDevices (JF := blankFormat)
                      (fold_left recordRequested [parisPoint] [])
                      [parisDevice])))
      by (rewrite Hagg; left; reflexivity).
    destruct (Hcandidate point Hin) as (entry' & _ & Hof & _).
    exists entry', point. split; [exact Hin | exact Hof].
  - apply Hfew. rewrite Hagg. cbn [snd].
    rewrite Zlength_cons, Zlength_nil. lia.
Defined.

Lemma formatDevice_exact_witness :
  exists entry point,
    formatDevice (JF := blankFormat)
      [("34:db:fd:43:e3:a1"%string, [Finite (-52)])] ([], [])
      {| bssid := Some "34DBFD43E3A1"%string;
         location := Some {| latitudeE8 := Finite (IZR 4885661300);
                             longitudeE8 := Finite (IZR 235222200) |} |}
    = ([entry], [point])
  /\ formatDevice (JF := blankFormat)
       [("34:db:fd:43:e3:a1"%string, [Finite (-52)])] ([], [])
       {| bssid := Some "34DBFD43E3A1"%string;
          location := Some {| latitudeE8 := Finite (IZR (-18000000000));
                              longitudeE8 := Finite (IZR (-18000000000)) |} |}
    = ([], []).
Proof.
  pose proof (formatDevice_exact (JF := blankFormat)
                [("34:db:fd:43:e3:a1"%string, [Finite (-52)])] ([], [])
                "34DBFD43E3A1" "34:db:fd:43:e3:a1"
                4885661300 235222200 [(-52)%R] eq_refl eq_refl) as [_ Hkept].
  pose proof (formatDevice_exact (JF := blankFormat)
                [("34:db:fd:43:e3:a1"%string, [Finite (-52)])] ([], [])
                "34DBFD43E3A1" "34:db:fd:43:e3:a1"
                (-18000000000) (-18000000000) [(-52)%R] eq_refl eq_refl)
    as [Hdropped _].
  destruct Hkept as (entry & _ & Hfst & _ & Hsnd); [lia | ].
  destruct Hsnd as (point & _ & Hsnd); [discriminate | ].
  exists entry, point. split.
  - apply injective_projections; [exact Hfst | exact Hsnd].
  - apply Hdropped. split; reflexivity.
Defined.


(* ================================================================= *)
(** ** Normalized access points *)

Section NormalizedPoints.
Context {num : Type} {JN : JsNumber num} {JP : JsParse num}.

Lemma normalizeSignal_cases (value : jsval num) :
  (normalizeSignal value = Ok None
   /\ (value = VNull \/ value = VUndefined \/ value = VString ""))
  \/ (exists x, normalizeSignal value = Ok (Some x)
                /\ Number_isFinite x = true)
  \/ normalizeSignal value = Throw signalError.
Proof.
  destruct value as [ | | x | s | ]; cbn [normalizeSignal].
  - left. split; [reflexivity | left; reflexivity].
  - left. split; [reflexivity | right; left; reflexivity].
  - destruct (Number_isFinite x) eqn:Hfinite.
    + right. left. exists x. split; [reflexivity | exact Hfinite].
    + right. right. reflexivity.
  - destruct s as [ | c s].
    + left. split; [reflexivity | right; right; reflexivity].
    + destruct (Number_isNaN _); cbn [negb andb];
        [right; right; reflexivity | ].
      destruct (Number_isFinite _) eqn:Hfinite.
      * right. left. eexists. split; [reflexivity | exact Hfinite].
      * right. right. reflexivity.
  - right. right. reflexivity.
Qed.

(** X18. [normalizeSignal] returns null exactly for null, undefined and the
    empty string; a Number that it returns is finite; in every other case
    it throws its one error. *)
Theorem normalizeSignal_finite (value : jsval num) :
  (normalizeSignal value = Ok None
   <-> value = VNull \/ value = VUndefined \/ value = VString "")
  /\ (forall x, normalizeSignal value = Ok (Some x) ->
                Number_isFinite x = true)
  /\ (forall e, normalizeSignal value = Throw e ->
                e = Error "Signal strength must be a finite number.").
Proof.
  destruct (normalizeSignal_cases value)
    as [[Hnone Hvalue] | [(x & Hsome & Hfinite) | Hthrow]].
  - split; [split; [intros _; exact Hvalue | intros _; exact Hnone] | ].
    rewrite Hnone. split; [discriminate | discriminate].
  - rewrite Hsome. split; [ | split].
    + split; [discriminate | ].
      intros [-> | [-> | ->]]; discriminate Hsome.
    + intros y Hy. injection Hy as <-. exact Hfinite.
    + discriminate.
  - rewrite Hthrow. split; [ | split].
    + split; [discriminate | ].
      intros [-> | [-> | ->]]; discriminate Hthrow.
    + discriminate.
    + intros e He. injection He as <-. reflexivity.
Qed.

Lemma normalizePoint_cases (point : RawPoint num) :
  (exists normalized,
     normalizePoint point = Ok normalized
     /\ normalizeBssid (raw_bssid point) = Ok (ap_bssid normalized)
     /\ normalizeSignal (raw_signal point) = Ok (signal normalized))
  \/ normalizePoint point = Throw bssidError
  \/ normalizePoint point = Throw signalError.
Proof.
  unfold normalizePoint.
  rewrite normalizeBssid_joinPairs.
  destruct (negb (String.length (stripNonHex (raw_bssid point)) =? 12)%nat);
    cbn [bind]; [right; left; reflexivity | ].
  destruct (normalizeSignal_cases (raw_signal point))
    as [[Hnone _] | [(x & Hsome & _) | Hthrow]].
  - rewrite Hnone. cbn [bind]. left. eexists.
    split; [reflexivity | split; reflexivity].
  - rewrite Hsome. cbn [bind]. left. eexists.
    split; [reflexivity | split; reflexivity].
  - rewrite Hthrow. right. right. reflexivity.
Qed.

(** X19. A point that the handler normalized has a canonical BSSID, which
    [normalizeBssid] returns unchanged, and a signal that is null or
    finite, so that the first loop of [formatResults] keeps every signal
    that is there.  A point that cannot be normalized throws the BSSID
    error or the signal error, the BSSID error first. *)
Theorem normalizePoint_normalized (point : RawPoint num) :
  (forall normalized,
     normalizePoint point = Ok normalized ->
     normalizeBssid (ap_bssid normalized) = Ok (ap_bssid normalized)
     /\ keptSignal normalized
        = match signal normalized with
          | Some value => [value]
          | None => []
          end)
  /\ (forall e,
        normalizePoint point = Throw e ->
        (e = Error "Each BSSID must contain 12 hexadecimal characters."
         /\ String.length (stripNonHex (raw_bssid point)) <> 12%nat)
        \/ (e = Error "Signal strength must be a finite number."
            /\ String.length (stripNonHex (raw_bssid point)) = 12%nat)).
Proof.
  split.
  - intros normalized Hok.
    destruct (normalizePoint_cases point)
      as [(normalized' & Hok' & Hbssid & Hsignal) | [Hthrow | Hthrow]];
      [ | rewrite Hthrow in Hok; discriminate
        | rewrite Hthrow in Hok; discriminate].
    rewrite Hok' in Hok. injection Hok as ->.
    split; [apply (normalizeBssid_fixed _ _ Hbssid) | ].
    unfold keptSignal. destruct (signal normalized) as [value | ];
      [ | reflexivity].
    destruct (normalizeSignal_cases (raw_signal point))
      as [[Hnone _] | [(x & Hsome & Hfinite) | Hthrow]];
      [rewrite Hnone in Hsignal; discriminate | | 
       rewrite Hthrow in Hsignal; discriminate].
    rewrite Hsome in Hsignal. injection Hsignal as <-.
    rewrite Hfinite. reflexivity.
  - intros e. unfold normalizePoint. rewrite normalizeBssid_joinPairs.
    destruct (Nat.eqb_spec (String.length (stripNonHex (raw_bssid point))) 12)
      as [Hlen | Hlen]; cbn [negb bind].
    + destruct (normalizeSignal_cases (raw_signal point))
        as [[Hnone _] | [(x & Hsome & _) | Hthrow]].
      * rewrite Hnone. discriminate.
      * rewrite Hsome. discriminate.
      * rewrite Hthrow. cbn [bind]. intros H. injection H as <-.
        right. split; [reflexivity | exact Hlen].
    + intros H. injection H as <-. left. split; [reflexivity | exact Hlen].
Qed.

End NormalizedPoints.

(* ================================================================= *)
(** ** One request per BSSID *)

Lemma map_get_unique {V : Type} (m : list (string * V)) (key : string)
  (value : V) :
  NoDup (map fst m) ->
  (In (key, value) m <-> map_get m key = Some value).
Proof.
  induction m as [ | [k v] m IH]; cbn [map fst map_get In].
  - intros _. split; [contradiction | discriminate].
  - intros Hnodup. inversion Hnodup as [ | ? ? Hfresh Hrest]. subst.
    destruct (String.eqb_spec k key) as [-> | Hne].
    + split.
      * intros [H | H]; [injection H as <-; reflexivity | ].
        exfalso. apply Hfresh. change key with (fst (key, value)).
        apply in_map. exact H.
      * intros H. injection H as <-. left. reflexivity.
    + rewrite <- (IH Hrest). split.
      * intros [H | H]; [injection H as -> _; contradiction | exact H].
      * intros H. right. exact H.
Qed.

Section Unique.
Context {num : Type}.

Lemma lastOf_snoc (key : string) (done : list (AccessPoint num))
  (point : AccessPoint num) :
  lastOf key (done ++ [point])
  = if String.eqb (ap_bssid point) key then Some point else lastOf key done.
Proof. unfold lastOf. rewrite fold_left_app. reflexivity. Qed.

Lemma indexed_step (done : list (AccessPoint num))
  (m : list (string * AccessPoint num)) (point : AccessPoint num) :
  indexed done m ->
  indexed (done ++ [point]) (map_set m (ap_bssid point) point).
Proof.
  intros (Hnodup & Hkeys & Hget). split; [ | split].
  - rewrite map_set_keys.
    destruct (map_has m (ap_bssid point)) eqn:Hhas; [exact Hnodup | ].
    apply NoDup_app; [exact Hnodup | repeat constructor; intros [] | ].
    intros key Hin [<- | []]. apply map_get_In in Hin. congruence.
  - clear Hget Hnodup. induction m as [ | [k v] m IH]; cbn [map_set].
    + reflexivity.
    + cbn [map fst snd] in Hkeys. injection Hkeys as Hk Hkeys.
      destruct (String.eqb_spec k (ap_bssid point)) as [Heq | Hne];
        cbn [map fst snd].
      * rewrite Heq, Hkeys. reflexivity.
      * rewrite (IH Hkeys), Hk. reflexivity.
  - intros key. rewrite map_get_set, lastOf_snoc, Hget. reflexivity.
Qed.

Lemma indexed_fold (points : list (AccessPoint num)) :
  forall done m,
    indexed done m ->
    indexed (done ++ points)
      (fold_left (fun m point => map_set m (ap_bssid point) point) points m).
Proof.
  induction points as [ | point points IH]; intros done m Hm; cbn [fold_left].
  - rewrite app_nil_r. exact Hm.
  - replace (done ++ point :: points) with ((done ++ [point]) ++ points)
      by (rewrite <- app_assoc; reflexivity).
    apply IH, indexed_step, Hm.
Qed.

Lemma lastOf_requested (key : string) (points : list (AccessPoint num)) :
  requested key points = true <-> lastOf key points <> None.
Proof.
  induction points as [ | point points IH] using rev_ind.
  - split; [discriminate | intros H; contradiction H; reflexivity].
  - rewrite lastOf_snoc. unfold requested in *. rewrite existsb_app.
    cbn [existsb]. rewrite orb_false_r.
    destruct (String.eqb (ap_bssid point) key).
    + rewrite orb_true_r. split; [discriminate | reflexivity].
    + rewrite orb_false_r. exact IH.
Qed.

(** X20. The handler sends one request per BSSID: the points it keeps have
    pairwise different BSSIDs, a point is kept exactly when it is the last
    of the normalized points with its BSSID, and every BSSID of the
    normalized points is kept. *)
Theorem uniqueAccessPoints_last (accessPoints : list (AccessPoint num)) :
  NoDup (map ap_bssid (uniqueAccessPoints accessPoints))
  /\ (forall point,
        In point (uniqueAccessPoints accessPoints)
        <-> lastOf (ap_bssid point) accessPoints = Some point)
  /\ (forall key,
        requested key (uniqueAccessPoints accessPoints)
        = requested key accessPoints).
Proof.
  unfold uniqueAccessPoints.
  destruct (indexed_fold accessPoints [] [])
    as (Hnodup & Hkeys & Hget).
  { split; [constructor | split; [reflexivity | intros key; reflexivity]]. }
  cbn [app] in *.
  set (m := fold_left _ accessPoints []) in *.
  assert (Hkey : forall k p, In (k, p) m -> k = ap_bssid p).
  { clear Hnodup Hget. induction m as [ | [k v] m IH]; [intros k p [] | ].
    cbn [map fst snd] in Hkeys. injection Hkeys as Hk Hkeys.
    intros k' p [H | H]; [injection H as <- <-; exact Hk | ].
    apply (IH Hkeys _ _ H). }
  assert (Hin : forall point,
            In point (map snd m)
            <-> lastOf (ap_bssid point) accessPoints = Some point).
  { intros point. rewrite <- Hget, <- (map_get_unique m _ _ Hnodup). split.
    - intros H. apply in_map_iff in H. destruct H as ([k p] & Hp & H).
      cbn [snd] in Hp. subst p. rewrite <- (Hkey _ _ H). exact H.
    - intros H. apply in_map_iff. exists (ap_bssid point, point).
      split; [reflexivity | exact H]. }
  split; [rewrite <- Hkeys; exact Hnodup | ].
  split; [exact Hin | ].
  intros key.
  destruct (requested key accessPoints) eqn:Hrequested.
  - apply lastOf_requested in Hrequested.
    destruct (lastOf key accessPoints) as [point | ] eqn:Hlast;
      [ | contradiction Hrequested; reflexivity].
    assert (Hpoint : ap_bssid point = key).
    { rewrite <- Hget in Hlast. apply (map_get_unique m _ _ Hnodup) in Hlast.
      symmetry. apply (Hkey _ _ Hlast). }
    unfold requested. apply existsb_exists. exists point. split.
    + apply Hin. rewrite Hpoint. exact Hlast.
    + apply String.eqb_eq. exact Hpoint.
  - destruct (requested key (map snd m)) eqn:Hkept; [ | reflexivity].
    exfalso. unfold requested in Hkept. apply existsb_exists in Hkept.
    destruct Hkept as (point & Hpoint & Heq).
    apply String.eqb_eq in Heq. apply Hin in Hpoint. rewrite Heq in Hpoint.
    assert (Hsome : lastOf key accessPoints <> None) by congruence.
    apply lastOf_requested in Hsome. congruence.
Qed.

End Unique.

Lemma uniqueAccessPoints_last_witness :
  let first : AccessPoint xreal :=
    {| ap_bssid := "34:db:fd:43:e3:a1"; signal := Some (Finite (-52)) |} in
  let other : AccessPoint xreal :=
    {| ap_bssid := "34:db:fd:43:e3:b2"; signal := None |} in
  let again : AccessPoint xreal :=
    {| ap_bssid := "34:db:fd:43:e3:a1"; signal := Some (Finite (-70)) |} in
  In again (uniqueAccessPoints [first; other; again])
  /\ uniqueAccessPoints [first; other; again] = [again; other].
Proof.
  intros first other again. split; [ | reflexivity].
  apply (proj1 (proj2 (uniqueAccessPoints_last [first; other; again]))).
  reflexivity.
Defined.

(* ================================================================= *)
(** ** The devices that are collected *)

Lemma NoDup_map_Some {A : Type} (l : list A) :
  NoDup l -> NoDup (map Some l).
Proof.
  induction 1 as [ | a l Hfresh Hl IH]; cbn [map]; constructor; [ | exact IH].
  intros Hin. apply in_map_iff in Hin. destruct Hin as (b & Hb & Hin).
  injection Hb as ->. contradiction.
Qed.

Lemma existsb_eqb_In (key : string) (seen : list string) :
  existsb (String.eqb key) seen = false -> ~ In key seen.
Proof.
  intros Hnone Hin.
  assert (Hsome : existsb (String.eqb key) seen = true).
  { apply existsb_exists. exists key. split; [exact Hin | ].
    apply String.eqb_refl. }
  congruence.
Qed.

Section Collect.
Context {num : Type} {JN : JsNumber num}.
Variable fetch : list Z -> outcome FetchResponse.

Lemma collectDevice_collected (s : list string * list (Device num))
  (device : Device num) :
  collected s -> collected (collectDevice s device).
Proof.
  destruct s as [seen aggregated]. intros (Hseen & Hnodup & Husable).
  cbn [fst snd] in *. unfold collectDevice.
  destruct (bssid device) as [device_bssid | ] eqn:Hbssid;
    [ | split; [ | split]; assumption].
  destruct (location device) as [device_location | ] eqn:Hlocation;
    [ | split; [ | split]; assumption].
  destruct (tryNormalizeBssid device_bssid) as [normalized | ] eqn:Hnormalized;
    [ | split; [ | split]; assumption].
  destruct (negb (truthy normalized)); cbn [orb];
    [split; [ | split]; assumption | ].
  destruct (existsb (String.eqb normalized) seen) eqn:Hfresh;
    [split; [ | split]; assumption | ].
  assert (Hdevice : normalizedBssid device = Some normalized)
    by (unfold normalizedBssid; rewrite Hbssid; exact Hnormalized).
  split; [ | split]; cbn [fst snd].
  - rewrite !map_app, Hseen. cbn [map]. rewrite Hdevice. reflexivity.
  - apply NoDup_app; [exact Hnodup | repeat constructor; intros [] | ].
    intros key Hin [<- | []]. apply (existsb_eqb_In _ _ Hfresh), Hin.
  - apply Forall_app. split; [exact Husable | ].
    constructor; [ | constructor]. split.
    + rewrite Hlocation. discriminate.
    + rewrite Hdevice. discriminate.
Qed.

Lemma collectDevices_collected (devices : list (Device num)) :
  forall s, collected s -> collected (fold_left collectDevice devices s).
Proof.
  induction devices as [ | device devices IH]; intros s Hs; [exact Hs | ].
  cbn [fold_left]. apply IH, collectDevice_collected, Hs.
Qed.

Lemma requestAppleDevices_ends (accessPoints : list (AccessPoint num))
  (includeAll : bool) :
  exists r, requestAppleDevices fetch accessPoints includeAll = Some r.
Proof.
  unfold requestAppleDevices, lift.
  destruct (encodeAppleWLocRequest accessPoints includeAll) as [request | e];
    cbn [bindM]; [ | eexists; reflexivity].
  destruct (fetch (buildEnvelope request)) as [response | e];
    cbn [bindM]; [ | eexists; reflexivity].
  destruct (negb (ok response)); [eexists; reflexivity | ].
  destruct (Zlength (body response) <=? 10); [eexists; reflexivity | ].
  destruct (parseAppleWLoc_decodes (num := num)
              (subarray (body response) 10 (Zlength (body response))))
    as (r & Hr & _).
  exists r. exact Hr.
Qed.

Lemma collect_loop_collected (includeAll : bool)
  (accessPoints : list (AccessPoint num)) :
  forall s,
    collected s ->
    exists r,
      collect_loop fetch includeAll accessPoints s = Some r
      /\ forall s', r = Ok s' -> collected s'.
Proof.
  induction accessPoints as [ | point rest IH]; intros s Hs;
    cbn [collect_loop].
  - exists (Ok s). split; [reflexivity | ].
    intros s' H. injection H as <-. exact Hs.
  - destruct (requestAppleDevices_ends [point] includeAll) as ([devices | e] & ->);
      cbn [bindM].
    + apply IH, collectDevices_collected, Hs.
    + exists (Throw e). split; [reflexivity | discriminate].
Qed.

Lemma collect_loop_aborts (includeAll : bool) (e : exn)
  (point : AccessPoint num) (rest : list (AccessPoint num)) :
  requestAppleDevices fetch [point] includeAll = Some (Throw e) ->
  forall front s,
    (forall p, In p front ->
       exists devices,
         requestAppleDevices fetch [p] includeAll = Some (Ok devices)) ->
    collect_loop fetch includeAll (front ++ point :: rest) s = Some (Throw e).
Proof.
  intros Hfail. induction front as [ | p front IH]; intros s Hfront;
    cbn [app collect_loop].
  - rewrite Hfail. reflexivity.
  - destruct (Hfront p) as (devices & ->); [left; reflexivity | ].
    cbn [bindM]. apply IH. intros q Hq. apply Hfront. right. exact Hq.
Qed.

Lemma collectAppleDevices_ends (accessPoints : list (AccessPoint num))
  (includeAll : bool) :
  exists r, collectAppleDevices fetch accessPoints includeAll = Some r.
Proof.
  assert (Hstart : collected (num := num) ([], [])).
  { split; [reflexivity | split; constructor]. }
  destruct (collect_loop_collected includeAll accessPoints ([], []) Hstart)
    as (r & Hloop & _).
  unfold collectAppleDevices. rewrite Hloop.
  destruct r as [[seen aggregated] | e]; cbn [bindM]; eexists; reflexivity.
Qed.

Lemma collectAppleDevices_Ok (accessPoints : list (AccessPoint num))
  (includeAll : bool) (devices : list (Device num)) :
  collectAppleDevices fetch accessPoints includeAll = Some (Ok devices) ->
  NoDup (map normalizedBssid devices) /\ Forall usable devices.
Proof.
  assert (Hstart : collected (num := num) ([], [])).
  { split; [reflexivity | split; constructor]. }
  destruct (collect_loop_collected includeAll accessPoints ([], []) Hstart)
    as (r & Hloop & Hcollected).
  unfold collectAppleDevices. rewrite Hloop.
  destruct r as [[seen aggregated] | e]; cbn [bindM]; [ | discriminate].
  unfold ret. intros H. injection H as <-.
  destruct (Hcollected _ eq_refl) as (Hseen & Hnodup & Husable).
  cbn [fst snd] in *. split; [ | exact Husable].
  rewrite Hseen. apply NoDup_map_Some, Hnodup.
Qed.

(** X21. [collectAppleDevices] always ends.  The devices it returns are
    usable (each has a location and a BSSID that normalizes) and their
    normalized BSSIDs are pairwise different.  When the request for one
    access point fails after the requests before it succeeded, the whole
    collection fails with that error, whatever the later requests would
    give. *)
Theorem collectAppleDevices_distinct (accessPoints : list (AccessPoint num))
  (includeAll : bool) :
  (exists r, collectAppleDevices fetch accessPoints includeAll = Some r)
  /\ (forall devices,
        collectAppleDevices fetch accessPoints includeAll = Some (Ok devices) ->
        NoDup (map normalizedBssid devices) /\ Forall usable devices)
  /\ (forall front point rest e,
        accessPoints = front ++ point :: rest ->
        (forall p, In p front ->
           exists devices,
             requestAppleDevices fetch [p] includeAll = Some (Ok devices)) ->
        requestAppleDevices fetch [point] includeAll = Some (Throw e) ->
        collectAppleDevices fetch accessPoints includeAll = Some (Throw e)).
Proof.
  split; [apply collectAppleDevices_ends | ].
  split; [apply collectAppleDevices_Ok | ].
  intros front point rest e -> Hfront Hfail. unfold collectAppleDevices.
  rewrite (collect_loop_aborts includeAll e point rest Hfail front _ Hfront).
  reflexivity.
Qed.

End Collect.

(* ================================================================= *)
(** ** The handler, from the access points to the response *)

Lemma NoDup_map_filter {A B : Type} (g : A -> B) (f : A -> bool) (l : list A) :
  NoDup (map g l) -> NoDup (map g (filter f l)).
Proof.
  induction l as [ | a l IH]; cbn [map filter]; [intros H; exact H | ].
  intros Hnodup. inversion Hnodup as [ | ? ? Hfresh Hrest]. subst.
  destruct (f a); cbn [map]; [ | apply IH, Hrest].
  constructor; [ | apply IH, Hrest].
  intros Hin. apply Hfresh. apply in_map_iff in Hin.
  destruct Hin as (b & Hb & Hin). apply filter_In in Hin.
  apply in_map_iff. exists b. split; [exact Hb | apply Hin].
Qed.

Lemma mapOutcome_Ok {A B : Type} (f : A -> outcome B) (l : list A) :
  forall l', mapOutcome f l = Ok l' -> Forall2 (fun a b => f a = Ok b) l l'.
Proof.
  induction l as [ | a l IH]; intros l'; cbn [mapOutcome].
  - intros H. injection H as <-. constructor.
  - destruct (f a) as [b | e] eqn:Hfa; cbn [bind]; [ | discriminate].
    destruct (mapOutcome f l) as [bs | e]; cbn [bind]; [ | discriminate].
    intros H. injection H as <-. constructor; [exact Hfa | apply IH; reflexivity].
Qed.

Lemma mapOutcome_Throw {A B : Type} (f : A -> outcome B) (l : list A) (e : exn) :
  mapOutcome f l = Throw e -> exists a, In a l /\ f a = Throw e.
Proof.
  induction l as [ | a l IH]; cbn [mapOutcome]; [discriminate | ].
  destruct (f a) as [b | e'] eqn:Hfa; cbn [bind].
  - destruct (mapOutcome f l) as [bs | e']; cbn [bind]; [discriminate | ].
    intros H. injection H as ->.
    destruct (IH eq_refl) as (a' & Hin & Ha').
    exists a'. split; [right; exact Hin | exact Ha'].
  - intros H. injection H as ->. exists a. split; [left; reflexivity | exact Hfa].
Qed.

Section Distinct.
Context {num : Type} {JN : JsNumber num} {JF : JsFormat num}.

Lemma entryOf_normalizedBssid (requestedMap : list (string * list num))
  (device : Device num) (entry : ResultEntry) :
  entryOf requestedMap device entry ->
  normalizedBssid device = Some (entry_bssid entry).
Proof.
  intros (b & loc & Hb & _ & Hnormalized & _).
  unfold normalizedBssid. rewrite Hb. exact Hnormalized.
Qed.

Lemma aggregate_distinct (requestedMap : list (string * list num))
  (devices : list (Device num)) :
  forall s,
    NoDup (map normalizedBssid devices) ->
    NoDup (map entry_bssid (fst s)) ->
    (forall entry, In entry (fst s) ->
       ~ In (Some (entry_bssid entry)) (map normalizedBssid devices)) ->
    NoDup (map entry_bssid
             (fst (fold_left (formatDevice requestedMap) devices s))).
Proof.
  induction devices as [ | device devices IH]; intros s Hdevices Hs Hfresh;
    [exact Hs | ].
  cbn [fold_left map] in *.
  inversion Hdevices as [ | ? ? Hdevice Hrest]. subst.
  destruct (formatDevice_cases requestedMap s device)
    as [-> | (entry & Hentry & _ & Hcase)].
  - apply IH; [exact Hrest | exact Hs | ].
    intros entry Hin Hbad. apply (Hfresh entry Hin). right. exact Hbad.
  - apply entryOf_normalizedBssid in Hentry.
    assert (Hfst : fst (formatDevice requestedMap s device)
                   = fst s ++ [entry]).
    { destruct Hcase as [-> | (point & _ & ->)]; reflexivity. }
    apply IH; [exact Hrest | | ]; rewrite Hfst.
    + rewrite map_app. cbn [map].
      apply NoDup_app; [exact Hs | repeat constructor; intros [] | ].
      intros key Hin [<- | []].
      apply in_map_iff in Hin. destruct Hin as (other & Hkey & Hin).
      apply (Hfresh other Hin). left. rewrite Hentry, Hkey. reflexivity.
    + intros other Hin Hbad. apply in_app_or in Hin.
      destruct Hin as [Hin | [<- | []]].
      * apply (Hfresh other Hin). right. exact Hbad.
      * apply Hdevice. rewrite Hentry. exact Hbad.
Qed.

Lemma formatResults_distinct (devices : list (Device num))
  (points : list (AccessPoint num)) (includeAll : bool) :
  NoDup (map normalizedBssid devices) ->
  NoDup (map entry_bssid (results (formatResults devices points includeAll))).
Proof.
  intros Hdevices.
  pose proof (aggregate_distinct (fold_left recordRequested points [])
                devices ([], []) Hdevices) as Hagg.
  unfold formatResults, aggregateDevices.
  destruct (fold_left _ devices ([], []))
    as [aggregatedResults triangulationCandidates].
  cbn [fst results] in *.
  assert (Hnodup : NoDup (map entry_bssid aggregatedResults)).
  { apply Hagg; [constructor | intros entry []]. }
  destruct includeAll; [exact Hnodup | apply NoDup_map_filter, Hnodup].
Qed.

End Distinct.

Section Locate.
Context {num : Type} {JN : JsNumber num} {JF : JsFormat num} {JP : JsParse num}.
Variable fetch : list Z -> outcome FetchResponse.

Lemma formatResults_query (devices : list (Device num))
  (points : list (AccessPoint num)) (includeAll : bool) :
  query_accessPoints (formatResults devices points includeAll) = points
  /\ query_all (formatResults devices points includeAll) = includeAll.
Proof.
  unfold formatResults. destruct (aggregateDevices _ devices).
  split; reflexivity.
Qed.

(** X22. In a response of the handler no two results have the same BSSID,
    although [formatResults] alone does not remove duplicates; the points
    of its [query] are the given ones, normalized, each with a canonical
    BSSID, and its [all] is the flag given. *)
Theorem locateAccessPoints_distinct (rawAccessPoints : list (RawPoint num))
  (includeAll : bool) (response : FormatResponse) :
  locateAccessPoints fetch rawAccessPoints includeAll = Some (Ok response) ->
  NoDup (map entry_bssid (results response))
  /\ Forall2 (fun raw point => normalizePoint raw = Ok point)
       rawAccessPoints (query_accessPoints response)
  /\ Forall (fun point =>
               normalizeBssid (ap_bssid point) = Ok (ap_bssid point))
       (query_accessPoints response)
  /\ query_all response = includeAll.
Proof.
  unfold locateAccessPoints, lift.
  destruct (mapOutcome normalizePoint rawAccessPoints)
    as [accessPoints | e] eqn:Hnormalized; cbn [bindM]; [ | discriminate].
  destruct (collectAppleDevices fetch (uniqueAccessPoints accessPoints)
              includeAll) as [[devices | e] | ] eqn:Hcollect; cbn [bindM];
    [ | discriminate | discriminate].
  unfold ret. intros H. injection H as <-.
  apply mapOutcome_Ok in Hnormalized.
  destruct (formatResults_query devices accessPoints includeAll)
    as [-> ->].
  split; [ | split; [exact Hnormalized | split; [ | reflexivity]]].
  - apply formatResults_distinct.
    apply (collectAppleDevices_Ok fetch _ _ _ Hcollect).
  - clear Hcollect. induction Hnormalized as [ | raw point raws points Hpoint _ IH];
      constructor; [ | exact IH].
    destruct (normalizePoint_cases raw)
      as [(point' & Hok & Hbssid & _) | [Hthrow | Hthrow]];
      [ | rewrite Hthrow in Hpoint; discriminate
        | rewrite Hthrow in Hpoint; discriminate].
    rewrite Hok in Hpoint. injection Hpoint as <-.
    apply (normalizeBssid_fixed _ _ Hbssid).
Qed.

Lemma requestAppleDevices_Throw (point : AccessPoint num) (includeAll : bool)
  (e : exn) :
  requestAppleDevices fetch [point] includeAll = Some (Throw e) ->
  (exists payload, fetch payload = Throw e)
  \/ (exists payload response message details,
        fetch payload = Ok response
        /\ e = AppleServiceError message 502 details
        /\ (ok response = false \/ Zlength (body response) <= 10))
  \/ decodeError e.
Proof.
  unfold requestAppleDevices, lift.
  rewrite encodeAppleWLocRequest_message by discriminate. cbn [bindM].
  match goal with
  | |- context [fetch ?payload] =>
      destruct (fetch payload) as [response | e'] eqn:Hfetch
  end; cbn [bindM].
  - destruct (ok response) eqn:Hok; cbn [negb].
    + destruct (Z.leb_spec (Zlength (body response)) 10) as [Hshort | Hlong].
      * intros H. injection H as <-. right. left.
        eexists. exists response. eexists. eexists.
        split; [exact Hfetch | split; [reflexivity | right; exact Hshort]].
      * intros Hparse.
        destruct (parseAppleWLoc_decodes (num := num)
                    (subarray (body response) 10 (Zlength (body response))))
          as (r & Hr & Herror).
        rewrite Hr in Hparse. injection Hparse as ->.
        right. right. apply Herror. reflexivity.
    + intros H. injection H as <-. right. left.
      eexists. exists response. eexists. eexists.
      split; [exact Hfetch | split; [reflexivity | left; exact Hok]].
  - intros H. injection H as <-. left. eexists. exact Hfetch.
Qed.

Lemma collect_loop_Throw (includeAll : bool) (e : exn)
  (accessPoints : list (AccessPoint num)) :
  forall s,
    collect_loop fetch includeAll accessPoints s = Some (Throw e) ->
    exists point, requestAppleDevices fetch [point] includeAll = Some (Throw e).
Proof.
  induction accessPoints as [ | point rest IH]; intros s;
    cbn [collect_loop]; [discriminate | ].
  destruct (requestAppleDevices fetch [point] includeAll)
    as [[devices | e'] | ] eqn:Hrequest; cbn [bindM]; [ | | discriminate].
  - apply IH.
  - intros H. injection H as <-. exists point. exact Hrequest.
Qed.

(** X23. The handler always ends.  When a point cannot be normalized it
    fails with that error whatever the transport is, so nothing is sent,
    and the status is 400.  When it fails otherwise and the transport only
    rejects with plain errors, the status is 502 exactly for an
    [AppleServiceError], thrown for a response that was not ok or had at
    most 10 bytes; a rejection of the transport and a response that cannot
    be decoded both give 400. *)
Theorem locateAccessPoints_errors (rawAccessPoints : list (RawPoint num))
  (includeAll : bool) :
  (exists r, locateAccessPoints fetch rawAccessPoints includeAll = Some r)
  /\ (forall e,
        mapOutcome normalizePoint rawAccessPoints = Throw e ->
        statusCodeOf e = 400
        /\ forall transport,
             locateAccessPoints transport rawAccessPoints includeAll
             = Some (Throw e))
  /\ (forall e,
        (forall payload e', fetch payload = Throw e' ->
                            exists message, e' = Error message) ->
        locateAccessPoints fetch rawAccessPoints includeAll = Some (Throw e) ->
        (statusCodeOf e = 400
         /\ (mapOutcome normalizePoint rawAccessPoints = Throw e
             \/ (exists payload, fetch payload = Throw e)
             \/ decodeError e))
        \/ (statusCodeOf e = 502
            /\ exists payload response message details,
                 fetch payload = Ok response
                 /\ e = AppleServiceError message 502 details
                 /\ (ok response = false \/ Zlength (body response) <= 10))).
Proof.
  split; [ | split].
  - unfold locateAccessPoints, lift.
    destruct (mapOutcome normalizePoint rawAccessPoints) as [accessPoints | e];
      cbn [bindM]; [ | eexists; reflexivity].
    destruct (collectAppleDevices_ends fetch (uniqueAccessPoints accessPoints)
                includeAll) as ([devices | e] & ->); cbn [bindM];
      eexists; reflexivity.
  - intros e Hthrow. split.
    + apply mapOutcome_Throw in Hthrow. destruct Hthrow as (raw & _ & Hraw).
      destruct (normalizePoint_cases raw)
        as [(point & Hok & _) | [Hbad | Hbad]];
        rewrite Hraw in *; [discriminate | | ];
        injection Hbad as ->; reflexivity.
    + intros transport. unfold locateAccessPoints, lift.
      rewrite Hthrow. reflexivity.
  - intros e Hrejects. unfold locateAccessPoints, lift.
    destruct (mapOutcome normalizePoint rawAccessPoints)
      as [accessPoints | e'] eqn:Hnormalized; cbn [bindM].
    + unfold collectAppleDevices.
      destruct (collect_loop fetch includeAll (uniqueAccessPoints accessPoints)
                  ([], [])) as [[[seen aggregated] | e'] | ] eqn:Hloop;
        cbn [bindM]; [discriminate | | discriminate].
      intros H. injection H as ->.
      apply collect_loop_Throw in Hloop. destruct Hloop as (point & Hrequest).
      apply requestAppleDevices_Throw in Hrequest.
      destruct Hrequest
        as [(payload & Hfetch)
           | [(payload & response & message & details & Hfetch & -> & Hwhy)
             | Hdecode]].
      * left. destruct (Hrejects _ _ Hfetch) as (message & ->).
        split; [reflexivity | right; left; exists payload; exact Hfetch].
      * right. split; [reflexivity | ].
        exists payload, response, message, details.
        split; [exact Hfetch | split; [reflexivity | exact Hwhy]].
      * left. split; [ | right; right; exact Hdecode].
        destruct Hdecode as [-> | (wireType & ->)]; reflexivity.
    + intros H. injection H as ->. left. split; [ | left; reflexivity].
      apply mapOutcome_Throw in Hnormalized.
      destruct Hnormalized as (raw & _ & Hraw).
      destruct (normalizePoint_cases raw)
        as [(point & Hok & _) | [Hbad | Hbad]];
        rewrite Hraw in *; [discriminate | | ];
        injection Hbad as ->; reflexivity.
Qed.

End Locate.

(* ================================================================= *)
(** ** The handler on one access point *)

Lemma paris_normalized :
  normalizePoint (JP := integerParse) parisRaw = Ok parisPoint.
Proof. reflexivity. Qed.

Lemma paris_collected (points : list (AccessPoint xreal)) :
  points = [parisPoint]
  \/ points = [parisPoint;
               {| ap_bssid := "00:11:22:33:44:55"; signal := None |}] ->
  collectAppleDevices parisFetch points false = Some (Ok [parisDevice]).
Proof. intros [-> | ->]; vm_compute; reflexivity. Qed.

Lemma paris_located :
  locateAccessPoints (JF := blankFormat) (JP := integerParse) parisFetch
    [parisRaw] false
  = Some (Ok (formatResults (JF := blankFormat) [parisDevice] [parisPoint]
                false)).
Proof.
  unfold locateAccessPoints, lift.
  change (mapOutcome (normalizePoint (JP := integerParse)) [parisRaw])
    with (Ok [parisPoint]).
  cbn [bindM].
  change (uniqueAccessPoints [parisPoint]) with [parisPoint].
  rewrite paris_collected by (left; reflexivity). reflexivity.
Qed.

Lemma normalizeSignal_finite_witness :
  normalizeSignal (JP := integerParse) (VString "-52")
  = Ok (Some (Finite (-52)))
  /\ Number_isFinite (Finite (-52)) = true.
Proof.
  assert (Hvalue : normalizeSignal (JP := integerParse) (VString "-52")
                   = Ok (Some (Finite (-52)))) by reflexivity.
  split; [exact Hvalue | ].
  exact (proj1 (proj2 (normalizeSignal_finite (JP := integerParse)
                         (VString "-52"))) _ Hvalue).
Defined.

Lemma normalizePoint_normalized_witness :
  normalizePoint (JP := integerParse) parisRaw = Ok parisPoint
  /\ normalizeBssid (ap_bssid parisPoint) = Ok (ap_bssid parisPoint)
  /\ keptSignal parisPoint = [Finite (-52)].
Proof.
  split; [exact paris_normalized | ].
  exact (proj1 (normalizePoint_normalized (JP := integerParse) parisRaw)
           parisPoint paris_normalized).
Defined.

Lemma collectAppleDevices_distinct_witness :
  collectAppleDevices parisFetch
    [parisPoint; {| ap_bssid := "00:11:22:33:44:55"; signal := None |}] false
  = Some (Ok [parisDevice])
  /\ NoDup (map normalizedBssid [parisDevice])
  /\ Forall usable [parisDevice].
Proof.
  assert (Hcollected := paris_collected _ (or_intror eq_refl)).
  split; [exact Hcollected | ].
  exact (proj1 (proj2 (collectAppleDevices_distinct parisFetch _ false))
           _ Hcollected).
Defined.

Lemma locateAccessPoints_distinct_witness :
  let response :=
    formatResults (JF := blankFormat) [parisDevice] [parisPoint] false in
  locateAccessPoints (JF := blankFormat) (JP := integerParse) parisFetch
    [parisRaw] false = Some (Ok response)
  /\ NoDup (map entry_bssid (results response))
  /\ Forall2 (fun raw point => normalizePoint (JP := integerParse) raw
                               = Ok point)
       [parisRaw] (query_accessPoints response)
  /\ Forall (fun point =>
               normalizeBssid (ap_bssid point) = Ok (ap_bssid point))
       (query_accessPoints response)
  /\ query_all response = false.
Proof.
  split; [exact paris_located | ].
  exact (locateAccessPoints_distinct (JF := blankFormat)
           (JP := integerParse) parisFetch [parisRaw] false _ paris_located).
Defined.

Lemma locateAccessPoints_errors_witness :
  let raws : list (RawPoint xreal) :=
    [parisRaw; {| raw_bssid := "34:db:fd:43"; raw_signal := VNull |}] in
  mapOutcome (normalizePoint (JP := integerParse)) raws = Throw bssidError
  /\ statusCodeOf bssidError = 400
  /\ forall transport,
       locateAccessPoints (JF := blankFormat) (JP := integerParse) transport
         raws true = Some (Throw bssidError).
Proof.
  intros raws.
  assert (Hthrow : mapOutcome (normalizePoint (JP := integerParse)) raws
                   = Throw bssidError) by reflexivity.
  split; [exact Hthrow | ].
  exact (proj1 (proj2 (locateAccessPoints_errors (JF := blankFormat)
                         (JP := integerParse) parisFetch raws true))
           _ Hthrow).
Defined.
